(** * sqlstruct: field resolution and row scanning

    A shallow embedding of package [sqlstruct]: the type introspection
    ([byName], [byIndex], [parseTag], [tagOptions.contains],
    [typeFields]) and the row mapping of sqlstruct.go ([scan], [Scan],
    [Columns] and their [Session] counterparts), followed by the
    properties of the resolved field set and of the row scan.

    The Go runtime pieces the package only consumes are modelled by
    their documented contract:
    - [reflect.Type] is an identifier into a finite universe of type
      descriptors; identity of identifiers is identity of types;
    - [sort.Sort] is a comparison sort driven by the [Less] method; the
      model runs an insertion sort, and [resolves_typeFields] shows that
      no other sorting algorithm could make [typeFields] return anything
      else;
    - a panic is a result of its own ([Panic]), apart from a returned
      error; the walk of [typeFields] runs on fuel, and
      [typeFields_total] shows that the fuel it is given always
      suffices;
    - a destination is a tree of values, an embedded pointer owning its
      pointee, so that an index path names one storage location;
    - a row source ([Rows]) is a pair of answers: the column list, and
      the values it stores through the targets it is handed. *)

From Stdlib Require Import String Ascii ZArith List Bool Lia Permutation Sorted OrderedTypeEx.
From stdpp Require Import base gmap strings list sorting.

(** ** Reflection: the universe of types *)

(** [reflect.Type] values are compared by identity and used as map keys. *)
Definition tid := nat.

Inductive Kind := KInvalid | KInt | KString | KPtr | KStruct | KOther.

#[global] Instance Kind_eq_dec : EqDecision Kind.
Proof. solve_decision. Defined.

(** [reflect.StructField]; [sfTag] is the value of [sf.Tag.Get("sql")],
    the only key of the struct tag the package reads. *)
Record StructField := mkSF {
  sfName : string;
  sfPkgPath : string;
  sfTag : string;
  sfAnonymous : bool;
  sfType : tid
}.

(** A type descriptor: [Name()], [Kind()], [Elem()] (pointers) and the
    declared fields in declaration order ([NumField()], [Field(i)]). *)
Record rtype := mkType {
  tName : string;
  tKind : Kind;
  tElem : tid;
  tFields : list StructField
}.

Definition universe := list rtype.

Definition invalidType : rtype := mkType "" KInvalid 0 [].

Definition typeOf (U : universe) (t : tid) : rtype := default invalidType (U !! t).

(** ** Results of calls that may panic *)

Inductive panicValue :=
  | DestNotPtrToStruct   (* panic(fmt.Errorf("dest must be pointer to struct; ...")) *)
  | ReflectPanic (msg : string).

Inductive res (A : Type) :=
  | Ret (a : A)
  | Panic (p : panicValue)
  | OutOfFuel.
Arguments Ret {A} a.
Arguments Panic {A} p.
Arguments OutOfFuel {A}.

Definition res_bind {A B} (m : res A) (k : A → res B) : res B :=
  match m with
  | Ret a => k a
  | Panic p => Panic p
  | OutOfFuel => OutOfFuel
  end.

Notation "x ←r m ; k" := (res_bind m (λ x, k))
  (at level 20, m at level 100, k at level 200, right associativity, only parsing).

(** ** typeinfo: fields and their orderings *)

Record field := mkField {
  ctx : string;     (* containing struct name, empty for top-level struct *)
  name : string;
  fname : string;   (* field's name (as found in the struct) *)
  tag : bool;
  index : list nat;
  typ : tid
}.

#[global] Instance field_eq_dec : EqDecision field.
Proof. solve_decision. Defined.

(** [byIndex.Less] on the two index sequences: the loop compares
    position by position; running off the end of the second sequence
    answers false, the first difference decides, and an exhausted first
    sequence is smaller exactly when it is the shorter one. *)
Fixpoint indexLess (a b : list nat) : bool :=
  match a, b with
  | [], [] => false
  | [], _ :: _ => true
  | _ :: _, [] => false
  | x :: a', y :: b' => if decide (x ≠ y) then Nat.ltb x y else indexLess a' b'
  end.

Definition byIndex_Less (x y : field) : bool := indexLess (index x) (index y).

Definition byName_Less (x y : field) : bool :=
  if decide (name x ≠ name y) then String.ltb (name x) (name y)
  else if decide (length (index x) ≠ length (index y))
       then Nat.ltb (length (index x)) (length (index y))
  else if decide (tag x ≠ tag y) then tag x
  else byIndex_Less x y.

(** [sort.Sort]: insertion of each element behind the elements that are
    not greater than it. *)
Fixpoint sortInsert {A} (less : A → A → bool) (x : A) (l : list A) : list A :=
  match l with
  | [] => [x]
  | y :: l' => if less x y then x :: y :: l' else y :: sortInsert less x l'
  end.

Definition Sort {A} (less : A → A → bool) (l : list A) : list A :=
  foldl (λ acc x, sortInsert less x acc) [] l.

(** The contract of [sort.Sort]: some permutation without inversions. *)
Definition sortedBy {A} (less : A → A → bool) (l : list A) : Prop :=
  StronglySorted (λ a b, less b a = false) l.

Definition isSortOf {A} (less : A → A → bool) (l s : list A) : Prop :=
  l ≡ₚ s ∧ sortedBy less s.

(** ** typeinfo: tags *)

Definition tagOptions := string.

(** [parseTag]: split at the first comma. *)
Definition parseTag (tg : string) : string * tagOptions :=
  match String.index 0 "," tg with
  | Some idx => (substring 0 idx tg, substring (idx + 1) (String.length tg - (idx + 1)) tg)
  | None => (tg, "")
  end.

(** ** typeinfo: tag options *)

(** [tagOptions.contains]: the loop cuts [s] at its first comma, compares
    the part before it and goes on with the part behind it.  Every turn
    shortens [s]; the model runs the loop on fuel. *)
Fixpoint containsLoop (fuel : nat) (s opt : string) : res bool :=
  if decide (s = "") then Ret false
  else
    match fuel with
    | 0 => OutOfFuel
    | S fuel' =>
        let cut := match String.index 0 "," s with
                   | Some i =>
                       (substring 0 i s, substring (i + 1) (String.length s - (i + 1)) s)
                   | None => (s, "")
                   end in
        if decide (cut.1 = opt) then Ret true else containsLoop fuel' cut.2 opt
    end.

Definition contains (o : tagOptions) (opt : string) : res bool :=
  if decide (String.length o = 0) then Ret false
  else containsLoop (String.length o) o opt.

(** ** typeinfo: the collision pass of [typeFields]

    [out := fields[:0]] shares the backing array of [fields]: the pass
    reads [fields[i]] from the array it is overwriting.  [dedupInPlace]
    keeps that array ([arr]), the length of [out] ([n]) and the current
    name; [dedup] is the same pass over a separate output list. *)

Record dedupState := mkDedup { d_name : string; d_arr : list field; d_n : nat }.

Definition dedupInPlaceStep (st : dedupState) (i : nat) : dedupState :=
  match d_arr st !! i with
  | None => st
  | Some f =>
      if decide (name f ≠ d_name st)
      then mkDedup (name f) (<[d_n st := f]> (d_arr st)) (S (d_n st))
      else match d_n st with
           | S m =>
               match d_arr st !! m with
               | Some l =>
                   if bool_decide (name l = d_name st) && (negb (tag l) || tag f)
                   then mkDedup (d_name st) (d_arr st) m
                   else st
               | None => st
               end
           | 0 => st
           end
  end.

Definition dedupInPlace (fields : list field) : list field :=
  let st := foldl dedupInPlaceStep (mkDedup "" fields 0) (seq 0 (length fields)) in
  take (d_n st) (d_arr st).

Definition dedupStep (st : string * list field) (f : field) : string * list field :=
  if decide (name f ≠ st.1) then (name f, st.2 ++ [f])
  else match last st.2 with
       | Some l =>
           if bool_decide (name l = st.1) && (negb (tag l) || tag f)
           then (st.1, removelast st.2)
           else st
       | None => st
       end.

Definition dedup (fields : list field) : list field :=
  (foldl dedupStep ("", []) fields).2.

(** ** typeinfo: the level-by-level walk of [typeFields] *)

(** The mutable locals of the walk: the queue for the next level, the
    per-level counters, the visited set and the fields found. *)
Record walkState := mkWalk {
  w_next : list field;
  w_nextCount : gmap tid nat;
  w_visited : gset tid;
  w_fields : list field
}.

(** Reading a [map[reflect.Type]int]: a missing key reads as zero. *)
Definition countOf (m : gmap tid nat) (t : tid) : nat := default 0 (m !! t).

(** The entry the walk starts from, [field{typ: t}]. *)
Definition rootEntry (t : tid) : field := mkField "" "" "" false [] t.

Section Walk.
Variable U : universe.

(** One level of pointer indirection is followed for unnamed pointer types. *)
Definition followPointer (ft : tid) : tid :=
  if bool_decide (tName (typeOf U ft) = "") && bool_decide (tKind (typeOf U ft) = KPtr)
  then tElem (typeOf U ft) else ft.

(** The body of the loop over the fields of [f.typ], at field number [i]. *)
Definition scanField (count : gmap tid nat) (f : field)
    (st : walkState) (i : nat) (sf : StructField) : walkState :=
  if decide (sfPkgPath sf ≠ "") then st
  else if decide (sfTag sf = "-") then st
  else
    let nm := (parseTag (sfTag sf)).1 in
    let idx := index f ++ [i] in
    let ft := followPointer (sfType sf) in
    if bool_decide (nm ≠ "") || negb (sfAnonymous sf)
       || bool_decide (tKind (typeOf U ft) ≠ KStruct)
    then
      let tagged := bool_decide (nm ≠ "") in
      let nm := if decide (nm = "") then sfName sf else nm in
      let e := mkField (tName (typeOf U (typ f))) nm (sfName sf) tagged idx ft in
      let fs := w_fields st ++ [e] in
      let fs := if decide (1 < countOf count (typ f)) then fs ++ [e] else fs in
      mkWalk (w_next st) (w_nextCount st) (w_visited st) fs
    else
      let nc := <[ft := S (countOf (w_nextCount st) ft)]> (w_nextCount st) in
      let nx := if decide (countOf nc ft = 1)
                then w_next st ++ [mkField "" (tName (typeOf U ft)) "" false idx ft]
                else w_next st in
      mkWalk nx nc (w_visited st) (w_fields st).

(** [for i := 0; i < f.typ.NumField(); i++]. *)
Fixpoint scanFields (count : gmap tid nat) (f : field)
    (st : walkState) (i : nat) (sfs : list StructField) : walkState :=
  match sfs with
  | [] => st
  | sf :: rest => scanFields count f (scanField count f st i sf) (S i) rest
  end.

(** The body of [for _, f := range current]. *)
Definition visit (count : gmap tid nat) (st : walkState) (f : field) : walkState :=
  if decide (typ f ∈ w_visited st) then st
  else scanFields count f
         (mkWalk (w_next st) (w_nextCount st) ({[typ f]} ∪ w_visited st) (w_fields st))
         0 (tFields (typeOf U (typ f))).

(** One level: [current, next = next, current[:0]] and
    [count, nextCount = nextCount, {}], then the loop over [current]. *)
Definition level (st : walkState) : walkState :=
  foldl (visit (w_nextCount st)) (mkWalk [] ∅ (w_visited st) (w_fields st)) (w_next st).

(** [for len(next) > 0]. *)
Fixpoint walk (fuel : nat) (st : walkState) : res (list field) :=
  match w_next st with
  | [] => Ret (w_fields st)
  | _ :: _ =>
      match fuel with
      | 0 => OutOfFuel
      | S fuel' => walk fuel' (level st)
      end
  end.

Definition walkStart (t : tid) : walkState := mkWalk [rootEntry t] ∅ ∅ [].

(** The fields found, before sorting: [NumField] panics on a type
    that is not a struct, which can only be the root. *)
Definition foundFields (t : tid) : res (list field) :=
  if decide (tKind (typeOf U t) = KStruct)
  then walk (S (length U)) (walkStart t)
  else Panic (ReflectPanic "reflect: NumField of non-struct type").

Definition typeFields (t : tid) : res (list field) :=
  fields ←r foundFields t;
  Ret (Sort byIndex_Less (dedupInPlace (Sort byName_Less fields))).

End Walk.

(** ** Destinations and row sources *)

#[local] Set Warnings "-register-all".

(** A destination value: integers, strings, structs (their fields in
    declaration order) and pointers (nil, or the value pointed to). *)
Inductive value :=
  | VInt (z : Z)
  | VStr (s : string)
  | VStruct (fs : list value)
  | VPtr (p : option value).

(** An [interface{}] argument: nil, or a dynamic type with its value. *)
Inductive iface :=
  | INil
  | IVal (t : tid) (v : value).

(** [reflect.Value.Field]. *)
Definition Value_Field (v : value) (i : nat) : res value :=
  match v with
  | VStruct fs =>
      match fs !! i with
      | Some x => Ret x
      | None => Panic (ReflectPanic "reflect: Field index out of range")
      end
  | _ => Panic (ReflectPanic "reflect: call of reflect.Value.Field on non-struct Value")
  end.

(** The loop of [reflect.Value.FieldByIndex]: from the second index on,
    a pointer met on the way is followed, and a nil one panics (a
    pointer to anything but a struct makes the following [Field] panic,
    followed or not). *)
Fixpoint fieldByIndexFrom (later : bool) (v : value) (idx : list nat) : res value :=
  match idx with
  | [] => Ret v
  | x :: rest =>
      v1 ←r (if later
             then match v with
                  | VPtr None =>
                      Panic (ReflectPanic
                        "reflect: indirection through nil pointer to embedded struct")
                  | VPtr (Some w) => Ret w
                  | _ => Ret v
                  end
             else Ret v);
      w ←r Value_Field v1 x;
      fieldByIndexFrom true w rest
  end.

Definition FieldByIndex (v : value) (idx : list nat) : res value :=
  match v with
  | VStruct _ => fieldByIndexFrom false v idx
  | _ => Panic (ReflectPanic "reflect: call of reflect.Value.FieldByIndex on non-struct Value")
  end.

(** Storing through the address [FieldByIndex(idx).Addr()] denotes. *)
Fixpoint storeFrom (later : bool) (idx : list nat) (new : value) (v : value) : value :=
  match idx with
  | [] => new
  | x :: rest =>
      match v with
      | VStruct fs => VStruct (alter (storeFrom true rest new) x fs)
      | VPtr (Some (VStruct fs)) =>
          if later then VPtr (Some (VStruct (alter (storeFrom true rest new) x fs))) else v
      | _ => v
      end
  end.

Definition storeAt (idx : list nat) (new : value) (v : value) : value :=
  storeFrom false idx new v.

(** [reflect.Value.Elem] of the destination: the struct pointed to, or
    the zero Value ([None]) for a nil pointer. *)
Definition Value_Elem (v : value) : res (option value) :=
  match v with
  | VPtr p => Ret p
  | _ => Panic (ReflectPanic "reflect: call of reflect.Value.Elem on non-pointer Value")
  end.

Definition error := string.

(** What [rows.Scan] is handed for one column: the address of a
    destination field (with the value stored there), or a fresh
    [sql.RawBytes] whose content nobody reads. *)
Inductive target :=
  | TField (addr : list nat) (cur : value)
  | TRawBytes.

(** The [Rows] interface.  [rows_Scan] answers with the values it stores
    through the targets, by position ([None]: target left alone), and
    with its error. *)
Record Rows := mkRows {
  rows_Columns : list string * option error;
  rows_Scan : list target → list (option value) * option error
}.

(** ** sqlstruct.go: scan *)

Definition fieldMap (fields : list field) : gmap string field :=
  foldl (λ m f, <[name f := f]> m) ∅ fields.

(** The body of [for _, name := range cols]. *)
Definition columnTarget (finfos : gmap string field) (elem : option value)
    (col : string) : res target :=
  match finfos !! col with
  | None => Ret TRawBytes
  | Some fi =>
      match elem with
      | None => Panic (ReflectPanic "reflect: call of reflect.Value.FieldByIndex on zero Value")
      | Some e => v ←r FieldByIndex e (index fi); Ret (TField (index fi) v)
      end
  end.

Fixpoint columnTargets (finfos : gmap string field) (elem : option value)
    (cols : list string) : res (list target) :=
  match cols with
  | [] => Ret []
  | c :: rest =>
      t ←r columnTarget finfos elem c;
      ts ←r columnTargets finfos elem rest;
      Ret (t :: ts)
  end.

(** The columns announced on standard output as having no field. *)
Definition unmapped (finfos : gmap string field) (cols : list string) : list string :=
  filter (λ c, finfos !! c = None) cols.

(** The stores [rows.Scan] performs, in target order. *)
Fixpoint applyWrites (ts : list target) (ws : list (option value)) (e : value) : value :=
  match ts, ws with
  | TField a _ :: ts', Some v :: ws' => applyWrites ts' ws' (storeAt a v e)
  | _ :: ts', _ :: ws' => applyWrites ts' ws' e
  | _, _ => e
  end.

(** What a returning [scan] leaves behind: the error returned, the
    destination afterwards and the diagnostics printed. *)
Record scanResult := mkScanResult {
  sr_err : option error;
  sr_dest : value;
  sr_diag : list string
}.

Definition scan (destv : value) (fields : list field) (rows : Rows) : res scanResult :=
  let finfos := fieldMap fields in
  elem ←r Value_Elem destv;
  match rows_Columns rows with
  | (_, Some err) => Ret (mkScanResult (Some err) destv [])
  | (cols, None) =>
      values ←r columnTargets finfos elem cols;
      let r := rows_Scan rows values in
      Ret (mkScanResult r.2 (VPtr (applyWrites values r.1 <$> elem)) (unmapped finfos cols))
  end.

(** The destination check shared by [Scan] and [Session.Scan]. *)
Definition notPtrToStruct (U : universe) (ty : tid) : bool :=
  bool_decide (tKind (typeOf U ty) ≠ KPtr)
  || bool_decide (tKind (typeOf U (tElem (typeOf U ty))) ≠ KStruct).

Definition Scan (U : universe) (dest : iface) (rows : Rows) : res scanResult :=
  match dest with
  | INil => Panic (ReflectPanic "reflect: call of reflect.Value.Type on zero Value")
  | IVal ty destv =>
      if notPtrToStruct U ty then Panic DestNotPtrToStruct
      else fields ←r typeFields U (tElem (typeOf U ty)); scan destv fields rows
  end.

(** ** sqlstruct.go: Session *)

(** [finfos] is the cache; [resolutions] counts the calls of
    [typeFields] made on behalf of the session. *)
Record Session := mkSession {
  finfos : gmap tid (list field);
  resolutions : nat
}.

Definition NewSession : Session := mkSession ∅ 0.

(** [fields, ok := s.finfos[valtyp]; if !ok { ... }]. *)
Definition Session_fields (U : universe) (s : Session) (valtyp : tid)
    : res (list field) * Session :=
  match finfos s !! valtyp with
  | Some fields => (Ret fields, s)
  | None =>
      match typeFields U valtyp with
      | Ret fields =>
          (Ret fields, mkSession (<[valtyp := fields]> (finfos s)) (S (resolutions s)))
      | r => (r, mkSession (finfos s) (S (resolutions s)))
      end
  end.

Definition Session_Scan (U : universe) (s : Session) (dest : iface) (rows : Rows)
    : res scanResult * Session :=
  match dest with
  | INil => (Panic (ReflectPanic "reflect: call of reflect.Value.Type on zero Value"), s)
  | IVal ty destv =>
      if notPtrToStruct U ty then (Panic DestNotPtrToStruct, s)
      else
        let r := Session_fields U s (tElem (typeOf U ty)) in
        (fields ←r r.1; scan destv fields rows, r.2)
  end.

(** ** sqlstruct.go: column lists *)

Definition quoteMark : string := String (Ascii.ascii_of_nat 34) EmptyString.

Definition quoted (s : string) : string := quoteMark +:+ s +:+ quoteMark.

(** [field.ColName]. *)
Definition ColName (f : field) : string :=
  if decide (name f ≠ fname f)
  then quoted (ctx f) +:+ "." +:+ quoted (fname f) +:+ " as " +:+ quoted (name f)
  else quoted (ctx f) +:+ "." +:+ quoted (name f).

Definition columns (fields : list field) : list string := ColName <$> fields.

Definition Columns (U : universe) (s : iface) : res (list string) :=
  match s with
  | INil => Panic (ReflectPanic "reflect: call of reflect.Value.Type on zero Value")
  | IVal ty _ => fields ←r typeFields U ty; Ret (columns fields)
  end.

Definition Session_Columns (U : universe) (s : Session) (d : iface)
    : res (list string) * Session :=
  match d with
  | INil => (Panic (ReflectPanic "reflect: call of reflect.Value.Type on zero Value"), s)
  | IVal ty _ =>
      let r := Session_fields U s ty in
      (fields ←r r.1; Ret (columns fields), r.2)
  end.

(** The calls a program can make on a session, and the session they
    leave behind. *)
Inductive sessionCall :=
  | CallScan (dest : iface) (rows : Rows)
  | CallColumns (d : iface).

Definition afterCall (U : universe) (s : Session) (c : sessionCall) : Session :=
  match c with
  | CallScan dest rows => (Session_Scan U s dest rows).2
  | CallColumns d => (Session_Columns U s d).2
  end.

(** ** Example types and row sources *)

Module Examples.
(** A row source holding one row: it reports [cols] and stores the
    row's values through the targets, position by position; like
    [sql.Rows.Scan] it refuses a target list of the wrong length. *)
Definition oneRow (cols : list string) (vals : list value) : Rows :=
  mkRows (cols, None)
         (λ ts, if decide (length ts = length vals)
                then (Some <$> vals, None)
                else ([], Some "sql: wrong number of destination arguments in Scan")).

(** A row source whose column listing fails. *)
Definition brokenRows (e : error) : Rows := mkRows ([], Some e) (λ _, ([], None)).

(* 0: int, 1: string, 2: Base, 3: Derived, 4: *Derived *)
Definition U4 : universe :=
  [ mkType "int" KInt 0 [];
    mkType "string" KString 0 [];
    mkType "Base" KStruct 0 [mkSF "ID" "" "id" false 0];
    mkType "Derived" KStruct 0 [mkSF "Base" "" "" true 2; mkSF "Name" "" "name" false 1];
    mkType "" KPtr 3 [] ].

Definition bobRows : Rows := oneRow ["name"; "id"] [VStr "bob"; VInt 7].

(** A [Derived] value and a pointer to it. *)
Definition derived (id : Z) (nm : string) : value := VStruct [VStruct [VInt id]; VStr nm].
Definition derivedPtr (id : Z) (nm : string) : iface := IVal 4 (VPtr (Some (derived id nm))).
End Examples.

(** More example types: shadowing, tags and ambiguity. *)
Module Shapes.
(** [Root{X int; E}] with [E{X int}]:
    0: int, 1: E, 2: Root. *)
Definition shadowU : universe :=
  [ mkType "int" KInt 0 [];
    mkType "E" KStruct 0 [mkSF "X" "" "" false 0];
    mkType "Root" KStruct 0 [mkSF "X" "" "" false 0; mkSF "E" "" "" true 1] ].

(** [Root{Y int; E}] with [E{Z int `sql:"Y"`}]. *)
Definition deepTagU : universe :=
  [ mkType "int" KInt 0 [];
    mkType "E" KStruct 0 [mkSF "Z" "" "Y" false 0];
    mkType "Root" KStruct 0 [mkSF "Y" "" "" false 0; mkSF "E" "" "" true 1] ].

(** [Root{A int `sql:"Y"`; E}] with [E{Y int}]. *)
Definition shallowTagU : universe :=
  [ mkType "int" KInt 0 [];
    mkType "E" KStruct 0 [mkSF "Y" "" "" false 0];
    mkType "Root" KStruct 0 [mkSF "A" "" "Y" false 0; mkSF "E" "" "" true 1] ].

End Shapes.

(** An embedded pointer: [Outer{*Inner; Name string}] with
    [Inner{ID int `sql:"id"`}]. *)
Module Pointers.
End Pointers.

(** A struct embedded along two paths of the same depth:
    [Root{B; C; N int}] with [B{A}], [C{A}] and [A{X int `sql:"x"`}]. *)
Module Diamond.
(* 0: int, 1: A, 2: B, 3: C, 4: Root *)
Definition diamondU : universe :=
  [ mkType "int" KInt 0 [];
    mkType "A" KStruct 0 [mkSF "X" "" "x" false 0];
    mkType "B" KStruct 0 [mkSF "A" "" "" true 1];
    mkType "C" KStruct 0 [mkSF "A" "" "" true 1];
    mkType "Root" KStruct 0 [mkSF "B" "" "" true 2; mkSF "C" "" "" true 3;
                             mkSF "N" "" "" false 0] ].
End Diamond.

(** * Vocabulary of the properties *)

(** What [sort.Sort] asks of [Less]: a strict weak ordering. *)
Record strictWeak {A} (less : A → A → bool) : Prop := mkStrictWeak {
  sw_asym : ∀ x y, less x y = true → less y x = false;
  sw_negtrans : ∀ x y z, less x y = false → less y z = false → less x z = false
}.

(** The first key of [byName]: names never decrease along the list. *)
Definition nameSorted (l : list field) : Prop :=
  StronglySorted (λ a b, String.ltb (name b) (name a) = false) l.

(** The entries bound to the name [y]. *)
Definition named (y : string) (l : list field) : list field :=
  filter (λ f, name f = y) l.

(** The head of a run of equal names survives the collision pass when
    it is alone, or when it is tagged and nothing behind it is. *)
Definition headSurvives (a : field) (rest : list field) : bool :=
  match rest with
  | [] => true
  | _ :: _ => tag a && forallb (λ f, negb (tag f)) rest
  end.

(** A queued entry whose type is a struct of the universe. *)
Definition structEntry (U : universe) (f : field) : Prop :=
  tKind (typeOf U (typ f)) = KStruct.

(** A declared field the walk looks at: exported and not excluded. *)
Definition considered (sf : StructField) : Prop :=
  sfPkgPath sf = "" ∧ sfTag sf ≠ "-".

(** The test that records a field instead of descending into it. *)
Definition recorded (U : universe) (sf : StructField) : bool :=
  bool_decide ((parseTag (sfTag sf)).1 ≠ "") || negb (sfAnonymous sf)
  || bool_decide (tKind (typeOf U (followPointer U (sfType sf))) ≠ KStruct).

(** The entry recorded for field [i] of the struct queued as [q]. *)
Definition leafEntry (U : universe) (q : field) (i : nat) (sf : StructField) : field :=
  let nm := (parseTag (sfTag sf)).1 in
  mkField (tName (typeOf U (typ q))) (if decide (nm = "") then sfName sf else nm)
          (sfName sf) (bool_decide (nm ≠ "")) (index q ++ [i])
          (followPointer U (sfType sf)).

(** The entry queued for the embedded struct at field [i] of [q]. *)
Definition childEntry (U : universe) (q : field) (i : nat) (sf : StructField) : field :=
  let ft := followPointer U (sfType sf) in
  mkField "" (tName (typeOf U ft)) "" false (index q ++ [i]) ft.

(** The structs reachable from the root [t] through embedded fields,
    each with the path leading to it. *)
Inductive queued (U : universe) (t : tid) : field → Prop :=
  | queued_root : queued U t (rootEntry t)
  | queued_child q i sf :
      queued U t q →
      tFields (typeOf U (typ q)) !! i = Some sf →
      considered sf → recorded U sf = false →
      queued U t (childEntry U q i sf).

(** The fields declared by those structs that the walk records. *)
Inductive found (U : universe) (t : tid) : field → Prop :=
  | found_leaf q i sf :
      queued U t q →
      tFields (typeOf U (typ q)) !! i = Some sf →
      considered sf → recorded U sf = true →
      found U t (leafEntry U q i sf).

(** A target that shares no storage with the path [q]. *)
Definition unrelated (q : list nat) (tg : target) : Prop :=
  match tg with
  | TField a _ => ¬ a `prefix_of` q ∧ ¬ q `prefix_of` a
  | TRawBytes => True
  end.

(** The dynamic type is a pointer to a struct. *)
Definition ptrToStruct (U : universe) (ty : tid) : Prop :=
  tKind (typeOf U ty) = KPtr ∧ tKind (typeOf U (tElem (typeOf U ty))) = KStruct.

(** The destination is a non-nil pointer to a struct. *)
Definition nonNilPtrToStruct (U : universe) (d : iface) : Prop :=
  ∃ ty v, d = IVal ty (VPtr (Some v)) ∧ ptrToStruct U ty.

(** The panic of the destination check, as opposed to those of the
    reflection calls. *)
Definition ownPanic {A} (r : res A) : Prop := r = Panic DestNotPtrToStruct.

(** C2 as the specification words it: a deeper explicitly tagged entry
    is the sole survivor against a shallower untagged one. *)
Definition deeperTagSurvives (U : universe) (t : tid) : Prop :=
  ∀ work y a b,
    foundFields U t = Ret work →
    named y work ≡ₚ [a; b] →
    tag a = false → tag b = true →
    length (index a) < length (index b) →
    ∃ out, typeFields U t = Ret out ∧ named y out = [b].

(** C8 as the specification words it: a violation is signalled exactly
    when the destination is not a non-nil pointer to a struct. *)
Definition checkedForNil (U : universe) (d : iface) (rows : Rows) : Prop :=
  (∃ p, Scan U d rows = Panic p) ↔ ¬ nonNilPtrToStruct U d.

(** A session as a program can hold it: [NewSession()] after some calls. *)
Definition reachable (U : universe) (s : Session) : Prop :=
  ∃ calls, s = foldl (afterCall U) NewSession calls.

(** Every cached field set is what [typeFields] returns for its key. *)
Definition cacheSound (U : universe) (s : Session) : Prop :=
  ∀ k fs, finfos s !! k = Some fs → typeFields U k = Ret fs.

(** A run of [typeFields] with any implementation of [sort.Sort]:
    each of the two sorts may return any permutation without
    inversions. *)
Definition resolves (U : universe) (t : tid) (out : list field) : Prop :=
  ∃ work s, foundFields U t = Ret work
            ∧ isSortOf byName_Less work s
            ∧ isSortOf byIndex_Less (dedupInPlace s) out.

(** Field [i] of the struct [t] embeds the struct [A]: an exported
    anonymous field without a tag name whose type, a pointer followed,
    is the struct type [A]. *)
Definition embedsAt (U : universe) (t : tid) (i : nat) (A : tid) : Prop :=
  ∃ sf, tFields (typeOf U t) !! i = Some sf ∧ considered sf
        ∧ sfAnonymous sf = true ∧ (parseTag (sfTag sf)).1 = ""
        ∧ followPointer U (sfType sf) = A ∧ tKind (typeOf U A) = KStruct.



(** The queue holds each type once, and exactly the counted ones. *)
Definition queueCounted (st : walkState) : Prop :=
  NoDup (typ <$> w_next st)
  ∧ ∀ ft, 0 < countOf (w_nextCount st) ft ↔ ft ∈ typ <$> w_next st.

(** What the first level leaves behind: the root's own fields scanned. *)
Definition rootScanned (U : universe) (t : tid) : walkState :=
  scanFields U ∅ (rootEntry t) (mkWalk [] ∅ ({[t]} ∪ ∅) []) 0 (tFields (typeOf U t)).

(** The characters of a string hold no comma. *)
Definition commaFree (s : string) : Prop :=
  ","%char ∉ list_ascii_of_string s.

(** The comma-separated tokens of a string: a comma ends a token, and
    what follows the last comma is a token unless it is empty. *)
Fixpoint tokens (s : string) : list string :=
  match s with
  | EmptyString => []
  | String c rest =>
      if decide (c = ","%char) then EmptyString :: tokens rest
      else match tokens rest with
           | [] => [String c EmptyString]
           | tk :: tks => String c tk :: tks
           end
  end.

#[global] Instance considered_dec (sf : StructField) : Decision (considered sf).
Proof. unfold considered. apply _. Defined.

(** The entries for the fields [sfs] of the struct queued as [q],
    numbered from [i], when each one considered is recorded. *)
Fixpoint entriesFrom (U : universe) (q : field) (i : nat) (sfs : list StructField)
    : list field :=
  match sfs with
  | [] => []
  | sf :: rest =>
      (if decide (considered sf) then [leafEntry U q i sf] else [])
      ++ entriesFrom U q (S i) rest
  end.

(** A struct that embeds no struct: each of its exported fields not
    tagged "-" is recorded. *)
Definition flat (U : universe) (t : tid) : Prop :=
  tKind (typeOf U t) = KStruct
  ∧ Forall (λ sf, considered sf → recorded U sf = true) (tFields (typeOf U t)).

(** A panic raised inside package reflect. *)
Definition reflectPanics {A} (r : res A) : Prop := ∃ msg, r = Panic (ReflectPanic msg).

(** What [scanField] appends to the fields found: nothing, the entry,
    or the entry twice when the struct being scanned was queued more
    than once. *)
Definition recordedEntries (U : universe) (count : gmap tid nat) (q : field)
    (i : nat) (sf : StructField) : list field :=
  if decide (considered sf)
  then if recorded U sf
       then if decide (1 < countOf count (typ q))
            then [leafEntry U q i sf; leafEntry U q i sf]
            else [leafEntry U q i sf]
       else []
  else [].

(** The entry [e] stands for a field of the struct queued as [q]. *)
Definition owns (q e : field) : Prop := ∃ i, index e = index q ++ [i].

(** The entry [e] stands for a field declared by the struct type [T],
    reached from the root [t] along some embedding path. *)
Definition declaredBy (U : universe) (t T : tid) (e : field) : Prop :=
  ∃ q, queued U t q ∧ typ q = T ∧ owns q e.

(** The fields found so far belong to visited types, and those of one
    type all hang off one queued struct. *)
Definition scannedOnce (U : universe) (t : tid) (st : walkState) : Prop :=
  (∀ e, e ∈ w_fields st → ∃ q, queued U t q ∧ owns q e ∧ typ q ∈ w_visited st)
  ∧ (∀ e e' q q', e ∈ w_fields st → e' ∈ w_fields st →
       queued U t q → queued U t q' → owns q e → owns q' e' →
       typ q = typ q' → q = q').

(** The same while the struct queued as [q0] is being scanned. *)
Definition scanning (U : universe) (t : tid) (q0 : field) (st : walkState) : Prop :=
  scannedOnce U t st ∧ typ q0 ∈ w_visited st
  ∧ (∀ e q, e ∈ w_fields st → queued U t q → owns q e → typ q = typ q0 → q = q0).

(** The list holds [e] twice in a row. *)
Definition twice (e : field) (l : list field) : Prop := ∃ l1 l2, l = l1 ++ e :: e :: l2.

(** * Properties *)

(** ** Orders *)

Lemma ltb_irrefl (a : string) : String.ltb a a = false.
Proof.
  unfold String.ltb. destruct (String.compare a a) eqn:E; try done.
  pose proof (String.compare_antisym a a) as H. rewrite E in H. done.
Qed.

Lemma ltb_trans (a b c : string) :
  String.ltb a b = true → String.ltb b c = true → String.ltb a c = true.
Proof.
  unfold String.ltb. intros H1 H2.
  destruct (String.compare a b) eqn:E1; try done.
  destruct (String.compare b c) eqn:E2; try done.
  apply String_as_OT.cmp_lt in E1, E2.
  pose proof (String_as_OT.lt_trans _ _ _ E1 E2) as H.
  apply String_as_OT.cmp_lt in H. unfold String_as_OT.cmp in H. by rewrite H.
Qed.

Lemma ltb_total (a b : string) :
  a ≠ b → String.ltb a b = false → String.ltb b a = true.
Proof.
  unfold String.ltb. intros Hne H. rewrite (String.compare_antisym b a).
  destruct (String.compare a b) eqn:E; try done.
  by apply String.compare_eq_iff in E.
Qed.

Lemma ltb_asym (a b : string) : String.ltb a b = true → String.ltb b a = false.
Proof.
  intros H. destruct (String.ltb b a) eqn:E; [|done].
  pose proof (ltb_trans _ _ _ H E) as H'. by rewrite ltb_irrefl in H'.
Qed.

Lemma ltb_negtrans (a b c : string) :
  String.ltb a b = false → String.ltb b c = false → String.ltb a c = false.
Proof.
  intros H1 H2. destruct (String.ltb a c) eqn:E; [|done].
  destruct (decide (a = b)) as [->|Hne]; [congruence|].
  pose proof (ltb_total _ _ Hne H1) as H. pose proof (ltb_trans _ _ _ H E). congruence.
Qed.

Lemma ltb_empty (a : string) : String.ltb a "" = false.
Proof. by destruct a. Qed.

Lemma indexLess_irrefl (a : list nat) : indexLess a a = false.
Proof. induction a as [|x a IH]; [done|]. simpl. by case_decide. Qed.

Lemma indexLess_asym (a b : list nat) : indexLess a b = true → indexLess b a = false.
Proof.
  revert b. induction a as [|x a IH]; intros [|y b]; simpl; try done.
  repeat case_decide; subst; try done; try lia.
  - rewrite Nat.ltb_lt, Nat.ltb_ge. lia.
  - apply IH.
Qed.

Lemma indexLess_negtrans (a b c : list nat) :
  indexLess a b = false → indexLess b c = false → indexLess a c = false.
Proof.
  revert b c. induction a as [|x a IH]; intros [|y b] [|z c]; simpl; try done.
  repeat case_decide; subst; try done; try lia;
    rewrite ?Nat.ltb_ge, ?Nat.ltb_lt; try lia; try apply IH.
  all: intros; exfalso; lia.
Qed.

(** Two index sequences that [byIndex] cannot tell apart are equal. *)
Lemma indexLess_total (a b : list nat) :
  indexLess a b = false → indexLess b a = false → a = b.
Proof.
  revert b. induction a as [|x a IH]; intros [|y b]; simpl; try done.
  repeat case_decide; subst; try done; try lia; rewrite ?Nat.ltb_ge; try lia.
  intros. f_equal. by apply IH.
Qed.


Lemma byIndex_strictWeak : strictWeak byIndex_Less.
Proof.
  split; unfold byIndex_Less; intros.
  - by apply indexLess_asym.
  - by eapply indexLess_negtrans.
Qed.

Lemma byName_asym (x y : field) : byName_Less x y = true → byName_Less y x = false.
Proof.
  unfold byName_Less, byIndex_Less.
  repeat case_decide; try congruence.
  - apply ltb_asym.
  - rewrite Nat.ltb_lt, Nat.ltb_ge. lia.
  - destruct (tag x), (tag y); done.
  - apply indexLess_asym.
Qed.

Lemma byName_negtrans (x y z : field) :
  byName_Less x y = false → byName_Less y z = false → byName_Less x z = false.
Proof.
  unfold byName_Less, byIndex_Less.
  destruct (decide (name x = name y)) as [Exy|Nxy];
    destruct (decide (name y = name z)) as [Eyz|Nyz].
  - rewrite Exy, Eyz.
    repeat case_decide; try congruence; rewrite ?Nat.ltb_ge, ?Nat.ltb_lt; try lia;
      try (destruct (tag x), (tag y), (tag z); done);
      try apply indexLess_negtrans.
    all: intros; exfalso; try lia; destruct (tag x), (tag y), (tag z); done.
  - rewrite Exy. repeat case_decide; try congruence.
  - rewrite <- Eyz. repeat case_decide; try congruence.
  - destruct (decide (name x ≠ name y)); [|done].
    destruct (decide (name y ≠ name z)); [|done].
    destruct (decide (name x = name z)) as [E|Nxz].
    + intros Hxy Hyz. rewrite E in Hxy.
      pose proof (ltb_total _ _ Nyz Hyz). congruence.
    + destruct (decide (name x ≠ name z)); [|done]. apply ltb_negtrans.
Qed.

Lemma byName_strictWeak : strictWeak byName_Less.
Proof. split; [apply byName_asym | apply byName_negtrans]. Qed.

Section Sorting.
Context {A : Type} (less : A → A → bool).

Lemma sortInsert_perm (x : A) (l : list A) : sortInsert less x l ≡ₚ x :: l.
Proof.
  induction l as [|y l IH]; simpl; [done|].
  destruct (less x y); [done|]. rewrite IH. apply Permutation_swap.
Qed.

Lemma Sort_perm (l : list A) : Sort less l ≡ₚ l.
Proof.
  unfold Sort. rewrite <- (app_nil_l l) at 2. generalize (@nil A) as acc.
  induction l as [|x l IH]; intros acc; simpl.
  - by rewrite app_nil_r.
  - rewrite IH, sortInsert_perm. simpl. apply Permutation_middle.
Qed.

Hypothesis Hless : strictWeak less.

Lemma sortInsert_sorted (x : A) (l : list A) :
  sortedBy less l → sortedBy less (sortInsert less x l).
Proof.
  unfold sortedBy. induction 1 as [|y l Hs IH Hy]; simpl.
  - repeat constructor.
  - destruct (less x y) eqn:E.
    + constructor; [by constructor|]. constructor.
      * by apply (sw_asym _ Hless).
      * eapply Forall_impl; [exact Hy|]. intros z Hz. simpl in Hz.
        eapply (sw_asym _ Hless) in E. by eapply (sw_negtrans _ Hless).
    + constructor; [done|].
      rewrite sortInsert_perm. by constructor.
Qed.

Lemma Sort_sorted (l : list A) : sortedBy less (Sort less l).
Proof.
  unfold Sort. assert (sortedBy less []) as H by constructor.
  revert H. generalize (@nil A) as acc.
  induction l as [|x l IH]; intros acc Hacc; simpl; [done|].
  apply IH. by apply sortInsert_sorted.
Qed.

Lemma Sort_isSortOf (l : list A) : isSortOf less l (Sort less l).
Proof. split; [symmetry; apply Sort_perm | apply Sort_sorted]. Qed.

End Sorting.

(** ** The collision pass: in place and on a separate output *)

Lemma dedupInPlaceStep_spec (nm : string) (arr : list field) (n i : nat) (f : field) :
  arr !! i = Some f → n ≤ i →
  let st' := dedupInPlaceStep (mkDedup nm arr n) i in
  (d_name st', take (d_n st') (d_arr st')) = dedupStep (nm, take n arr) f
  ∧ length (d_arr st') = length arr
  ∧ d_n st' ≤ S i
  ∧ drop (S i) (d_arr st') = drop (S i) arr.
Proof.
  intros Hf Hn. pose proof (lookup_lt_Some _ _ _ Hf) as Hi.
  unfold dedupInPlaceStep, dedupStep. simpl. rewrite Hf.
  destruct (decide (name f ≠ nm)) as [Hne|Heq]; simpl.
  - repeat split.
    + f_equal. rewrite (take_S_r _ _ f).
      * by rewrite take_insert_ge by lia.
      * apply list_lookup_insert_eq. lia.
    + by rewrite length_insert.
    + lia.
    + apply drop_insert_lt. lia.
  - destruct n as [|m]; simpl; [repeat split; auto with lia|].
    assert (is_Some (arr !! m)) as [l Hl] by (apply lookup_lt_is_Some; lia).
    rewrite Hl, (take_S_r _ _ l Hl), last_snoc.
    destruct (bool_decide (name l = nm) && (negb (tag l) || tag f)); simpl.
    + rewrite removelast_last. repeat split; auto with lia.
    + rewrite (take_S_r _ _ l Hl). repeat split; auto with lia.
Qed.

Lemma dedupInPlace_steps (l : list field) (k : nat) :
  ∀ i nm arr n,
    i + k = length l → length arr = length l → n ≤ i → drop i arr = drop i l →
    let st := foldl dedupInPlaceStep (mkDedup nm arr n) (seq i k) in
    (d_name st, take (d_n st) (d_arr st)) = foldl dedupStep (nm, take n arr) (drop i l).
Proof.
  induction k as [|k IH]; intros i nm arr n Hik Hlen Hn Hdrop; simpl.
  - by rewrite drop_ge by lia.
  - assert (is_Some (l !! i)) as [f Hf] by (apply lookup_lt_is_Some; lia).
    assert (arr !! i = Some f) as Hf'.
    { rewrite <- (Nat.add_0_r i), <- lookup_drop, Hdrop, lookup_drop, Nat.add_0_r. done. }
    rewrite (drop_S _ _ _ Hf). simpl.
    destruct (dedupInPlaceStep_spec nm arr n i f Hf' Hn) as (Hst & Hlen' & Hn' & Hdrop').
    destruct (dedupInPlaceStep (mkDedup nm arr n) i) as [nm' arr' n'] eqn:E.
    simpl in *. rewrite <- Hst. apply IH; try lia.
    rewrite Hdrop'. replace (S i) with (i + 1) by lia.
    rewrite <- !drop_drop. by rewrite Hdrop.
Qed.

(** The pass over the shared array computes what the pass over a
    separate output computes. *)
Lemma dedupInPlace_dedup (l : list field) : dedupInPlace l = dedup l.
Proof.
  unfold dedupInPlace, dedup.
  pose proof (dedupInPlace_steps l (length l) 0 "" l 0) as H.
  rewrite take_0, drop_0 in H. simpl in H.
  specialize (H eq_refl eq_refl (le_n 0) eq_refl).
  by rewrite <- H.
Qed.

(** ** The collision pass on a list sorted by name *)


Lemma byName_nameSorted (l : list field) : sortedBy byName_Less l → nameSorted l.
Proof.
  unfold sortedBy, nameSorted. induction 1 as [|x l Hs IH Hx]; constructor; [done|].
  eapply Forall_impl; [exact Hx|]. intros y Hy. simpl in Hy.
  unfold byName_Less in Hy. case_decide as Hn; [done|].
  rewrite Hn. apply ltb_irrefl.
Qed.

Lemma dedupStep_name (st : string * list field) (f : field) :
  (dedupStep st f).1 = name f.
Proof.
  unfold dedupStep. case_decide as Hn; [done|].
  destruct (last st.2); [|done]. by destruct (_ && _).
Qed.

(** A step either appends the field, drops the last output or does nothing. *)
Lemma dedupStep_out (st : string * list field) (f : field) :
  (name f ≠ st.1 ∧ (dedupStep st f).2 = st.2 ++ [f])
  ∨ (name f = st.1 ∧ (dedupStep st f).2 = st.2)
  ∨ (name f = st.1 ∧ ∃ l, st.2 = (dedupStep st f).2 ++ [l]
                          ∧ name l = st.1 ∧ (tag l = false ∨ tag f = true)).
Proof.
  unfold dedupStep. case_decide as Hn; [by left|].
  rename Hn into E. right. destruct (last st.2) as [l|] eqn:El; [|by left].
  destruct (bool_decide (name l = st.1) && (negb (tag l) || tag f)) eqn:Ec; [|by left].
  right. split; [done|]. exists l. simpl.
  apply last_Some in El as [l' El]. rewrite El, removelast_last.
  apply andb_true_iff in Ec as [Ec1%bool_decide_eq_true Ec2%orb_true_iff].
  repeat split; [done|]. destruct Ec2 as [?%negb_true_iff|?]; auto.
Qed.

Lemma dedup_steps_NoDup (l : list field) :
  ∀ nm out,
    nameSorted l →
    NoDup (name <$> out) →
    Forall (λ g, String.ltb nm (name g) = false) out →
    Forall (λ f, String.ltb (name f) nm = false) l →
    NoDup (name <$> (foldl dedupStep (nm, out) l).2).
Proof.
  induction l as [|f l IH]; intros nm out Hs Hnd Hout Hl; simpl; [done|].
  inversion Hs as [|? ? Hs' Hf]; subst. inversion Hl as [|? ? Hfn Hl']; subst.
  pose proof (dedupStep_name (nm, out) f) as Hname.
  destruct (dedupStep (nm, out) f) as [nm' out'] eqn:E. simpl in Hname. subst nm'.
  pose proof (dedupStep_out (nm, out) f) as Hstep. rewrite E in Hstep. simpl in Hstep.
  assert (Forall (λ g, String.ltb (name f) (name g) = false) out) as Hout'.
  { eapply Forall_impl; [exact Hout|]. intros g Hg. simpl in Hg.
    by eapply ltb_negtrans. }
  apply IH; [done| | |done].
  - destruct Hstep as [[Hne ->]|[[He ->]|[He (x & -> & _)]]].
    + rewrite fmap_app. simpl. apply NoDup_app. split; [done|]. split; [|apply NoDup_singleton].
      intros y Hy Hy'. apply list_elem_of_singleton in Hy' as ->.
      apply list_elem_of_fmap in Hy as (g & Hg & Hin).
      rewrite Forall_forall in Hout. specialize (Hout g Hin). simpl in Hout.
      destruct (decide (name f = nm)) as [|Hn]; [done|].
      pose proof (ltb_total _ _ Hn Hfn) as Hlt. rewrite Hg in Hlt. congruence.
    + done.
    + rewrite fmap_app in Hnd. by apply NoDup_app in Hnd as [? _].
  - destruct Hstep as [[Hne ->]|[[He ->]|[He (x & Ex & _)]]].
    + apply Forall_app. split; [done|]. constructor; [apply ltb_irrefl|done].
    + done.
    + rewrite Ex in Hout'. by apply Forall_app in Hout' as [? _].
Qed.

(** After the collision pass over a list sorted by name, no name is
    left twice. *)
Lemma dedup_NoDup (l : list field) : nameSorted l → NoDup (name <$> dedup l).
Proof.
  intros Hs. unfold dedup. apply dedup_steps_NoDup; [done|constructor|constructor|].
  apply Forall_forall. intros f _. apply ltb_empty.
Qed.


Lemma named_nil_Forall (y : string) (l : list field) :
  Forall (λ f, name f ≠ y) l → named y l = [].
Proof.
  unfold named. induction 1 as [|x l Hx _ IH]; [done|].
  by rewrite filter_cons_False.
Qed.

Lemma named_Forall (y : string) (l : list field) : Forall (λ f, name f = y) (named y l).
Proof. apply Forall_forall. intros f Hf. by apply list_elem_of_filter in Hf as [? _]. Qed.

Lemma named_all (y : string) (l : list field) :
  Forall (λ f, name f = y) l → named y l = l.
Proof.
  unfold named. induction 1 as [|x l Hx _ IH]; [done|].
  by rewrite filter_cons_True, IH.
Qed.

(** Steps over fields of other names leave the entries named [y] alone. *)
Lemma dedup_steps_other (y : string) (l : list field) :
  ∀ st, Forall (λ f, name f ≠ y) l →
        named y (foldl dedupStep st l).2 = named y st.2.
Proof.
  induction l as [|f l IH]; intros st Hl; simpl; [done|].
  inversion Hl as [|? ? Hf Hl']; subst. rewrite IH by done.
  destruct (dedupStep_out st f) as [[_ ->]|[[_ ->]|[He (x & Ex & Hx & _)]]].
  - unfold named. rewrite filter_app, filter_cons_False, filter_nil, app_nil_r; done.
  - done.
  - rewrite Ex. unfold named.
    rewrite filter_app, filter_cons_False, filter_nil, app_nil_r; [done|].
    congruence.
Qed.

Lemma dedup_steps_name_other (y : string) (l : list field) :
  ∀ st, st.1 ≠ y → Forall (λ f, name f ≠ y) l → (foldl dedupStep st l).1 ≠ y.
Proof.
  induction l as [|f l IH]; intros st Hst Hl; simpl; [done|].
  inversion Hl; subst. apply IH; [|done]. by rewrite dedupStep_name.
Qed.

(** Once the head of a run is gone, the rest of the run changes nothing. *)
Lemma dedup_steps_popped (y : string) (out : list field) (rest : list field) :
  Forall (λ f, name f = y) rest → Forall (λ g, name g ≠ y) out →
  foldl dedupStep (y, out) rest = (y, out).
Proof.
  intros Hrest Hout. induction Hrest as [|f rest Hf _ IH]; simpl; [done|].
  rewrite <- IH at 2. f_equal. unfold dedupStep. simpl.
  rewrite decide_False by (intros ?; done).
  destruct (last out) as [l|] eqn:El; [|done].
  apply last_Some in El as [out' ->]. apply Forall_app in Hout as [_ Hl].
  inversion Hl; subst. by rewrite bool_decide_eq_false_2.
Qed.


Lemma headSurvives_tagged (a : field) (rest : list field) :
  tag a = true → headSurvives a rest = forallb (λ f, negb (tag f)) rest.
Proof. intros Ha. destruct rest; [done|]. simpl. by rewrite Ha. Qed.

Lemma dedup_steps_run (y : string) (out : list field) (a : field) (rest : list field) :
  name a = y → Forall (λ f, name f = y) rest → Forall (λ g, name g ≠ y) out →
  foldl dedupStep (y, out ++ [a]) rest
  = (y, if headSurvives a rest then out ++ [a] else out).
Proof.
  intros Ha Hrest Hout. induction Hrest as [|f rest Hf Hrest IH]; [done|].
  cbn [foldl]. unfold dedupStep at 2. cbn [fst snd].
  rewrite decide_False by (intros ?; done).
  rewrite last_snoc, bool_decide_eq_true_2 by done.
  unfold headSurvives. cbn [forallb].
  destruct (tag a) eqn:Ta, (tag f) eqn:Tf; cbn [negb orb andb].
  - rewrite removelast_last. by apply dedup_steps_popped.
  - rewrite IH, headSurvives_tagged by done. done.
  - rewrite removelast_last. by apply dedup_steps_popped.
  - rewrite removelast_last. by apply dedup_steps_popped.
Qed.

(** The pass over [pre ++ a :: rest ++ post], where [a :: rest] is the
    run of the name [y]. *)
Lemma dedup_run (y : string) (pre : list field) (a : field) (rest post : list field) :
  y ≠ "" →
  Forall (λ f, name f ≠ y) pre → name a = y →
  Forall (λ f, name f = y) rest → Forall (λ f, name f ≠ y) post →
  named y (dedup (pre ++ a :: rest ++ post)) = if headSurvives a rest then [a] else [].
Proof.
  intros Hy Hpre Ha Hrest Hpost. unfold dedup.
  rewrite foldl_app. cbn [foldl]. rewrite foldl_app.
  rewrite dedup_steps_other by done.
  destruct (foldl dedupStep ("", []) pre) as [nm1 out1] eqn:E1.
  assert (nm1 ≠ y) as Hnm1.
  { pose proof (dedup_steps_name_other y pre ("", [])) as H. rewrite E1 in H.
    apply H; [|done]. simpl. congruence. }
  assert (named y out1 = []) as Hout1.
  { pose proof (dedup_steps_other y pre ("", []) Hpre) as H. by rewrite E1 in H. }
  assert (Forall (λ g, name g ≠ y) out1) as Hout1'.
  { apply Forall_forall. intros g Hg Hgy.
    eapply (filter_nil_not_elem_of _ _ g Hout1); done. }
  assert (dedupStep (nm1, out1) a = (y, out1 ++ [a])) as ->.
  { unfold dedupStep. simpl. rewrite decide_True by congruence. by rewrite Ha. }
  rewrite dedup_steps_run by done. simpl.
  unfold named in *. destruct (headSurvives a rest); [|done].
  rewrite filter_app, Hout1. simpl. by rewrite filter_cons_True.
Qed.

(** Nothing named by the empty string survives: the pass starts with
    the empty name as the current one. *)
Lemma dedup_run_empty (run post : list field) :
  Forall (λ f, name f = "") run → Forall (λ f, name f ≠ "") post →
  named "" (dedup (run ++ post)) = [].
Proof.
  intros Hrun Hpost. unfold dedup. rewrite foldl_app.
  rewrite dedup_steps_other by done.
  by rewrite dedup_steps_popped.
Qed.

(** A list sorted by name splits into the names below [y], the run of
    [y] and the names above. *)
Lemma nameSorted_split (y : string) (l : list field) :
  nameSorted l →
  l = filter (λ f, String.ltb (name f) y = true) l ++ named y l
      ++ filter (λ f, String.ltb y (name f) = true) l.
Proof.
  unfold named. induction 1 as [|x l Hs IH Hx]; [done|].
  destruct (decide (name x = y)) as [Exy|Nxy].
  - assert (Forall (λ f, ¬ String.ltb (name f) y = true) l) as Hl.
    { eapply Forall_impl; [exact Hx|]. intros f Hf. simpl in Hf. rewrite <- Exy. congruence. }
    assert (filter (λ f, String.ltb (name f) y = true) l = []) as El.
    { clear -Hl. induction Hl; [done|]. by rewrite filter_cons_False. }
    rewrite (filter_cons_False _ x), (filter_cons_True _ x), (filter_cons_False _ x);
      [|rewrite Exy, ltb_irrefl; done|done|rewrite Exy, ltb_irrefl; done].
    rewrite El in *. simpl in *. by f_equal.
  - destruct (String.ltb (name x) y) eqn:Elt.
    + rewrite (filter_cons_True _ x), (filter_cons_False _ x), (filter_cons_False _ x);
        [|rewrite (ltb_asym _ _ Elt); done|done|done].
      simpl. by f_equal.
    + pose proof (ltb_total _ _ Nxy Elt) as Hgt.
      assert (Forall (λ f, String.ltb y (name f) = true) l) as Hl.
      { eapply Forall_impl; [exact Hx|]. intros f Hf. simpl in Hf.
        destruct (String.ltb y (name f)) eqn:E; [done|].
        pose proof (ltb_negtrans _ _ _ E Hf). congruence. }
      assert (filter (λ f, String.ltb (name f) y = true) l = []) as El.
      { clear -Hl. induction Hl as [|f l Hf _ IH]; [done|].
        rewrite filter_cons_False; [done|]. rewrite (ltb_asym _ _ Hf). done. }
      assert (filter (λ f, name f = y) l = []) as El'.
      { clear -Hl. induction Hl as [|f l Hf _ IH]; [done|].
        rewrite filter_cons_False; [done|]. intros E. rewrite E, ltb_irrefl in Hf. done. }
      rewrite (filter_cons_False _ x), (filter_cons_False _ x), (filter_cons_True _ x);
        [|done|done|congruence].
      rewrite El, El' in *. simpl in *. by f_equal.
Qed.

Lemma below_empty_nil (l : list field) :
  filter (λ f, String.ltb (name f) "" = true) l = [].
Proof.
  induction l as [|f l IH]; [done|].
  rewrite filter_cons_False; [done|]. by rewrite ltb_empty.
Qed.

(** The entries named [y] after the pass over a list sorted by name:
    the head of the run of [y], if it survives the run. *)
Lemma dedup_named (y : string) (l : list field) :
  nameSorted l →
  named y (dedup l) =
    match named y l with
    | [] => []
    | a :: rest => if bool_decide (y ≠ "") && headSurvives a rest then [a] else []
    end.
Proof.
  intros Hs. pose proof (nameSorted_split y l Hs) as Hl.
  set (pre := filter (λ f, String.ltb (name f) y = true) l) in *.
  set (post := filter (λ f, String.ltb y (name f) = true) l) in *.
  assert (Forall (λ f, name f ≠ y) pre) as Hpre.
  { apply Forall_forall. intros f [Hf _]%list_elem_of_filter E.
    rewrite E, ltb_irrefl in Hf. done. }
  assert (Forall (λ f, name f ≠ y) post) as Hpost.
  { apply Forall_forall. intros f [Hf _]%list_elem_of_filter E.
    rewrite E, ltb_irrefl in Hf. done. }
  pose proof (named_Forall y l) as Hrun.
  destruct (named y l) as [|a rest] eqn:Erun.
  - rewrite Hl. simpl.
    pose proof (dedup_steps_other y (pre ++ post) ("", [])) as H.
    unfold dedup. rewrite H; [done|]. by apply Forall_app.
  - apply Forall_cons in Hrun as [Ha Hrest].
    destruct (decide (y = "")) as [Ey|Ny].
    + rewrite bool_decide_eq_false_2 by (intros ?; done). simpl.
      assert (pre = []) as Epre.
      { unfold pre. rewrite Ey. apply below_empty_nil. }
      rewrite Hl, Epre. simpl. rewrite Ey.
      apply (dedup_run_empty (a :: rest) post).
      * rewrite <- Ey. by constructor.
      * by rewrite <- Ey.
    + rewrite bool_decide_eq_true_2 by done. simpl.
      rewrite Hl at 1. by apply dedup_run.
Qed.

(** ** The walk terminates *)

#[local] Set Warnings "-clear-no-such-hyp".

Section WalkTermination.
Context (U : universe).


Lemma structEntry_lt (f : field) : (structEntry U) f → typ f < length U.
Proof.
  unfold structEntry, typeOf. intros H.
  destruct (U !! typ f) eqn:E; [by eapply lookup_lt_Some|done].
Qed.

Lemma scanField_visited count f st i sf :
  w_visited (scanField U count f st i sf) = w_visited st.
Proof.
  unfold scanField. destruct (decide _); [done|]. destruct (decide _); [done|].
  by destruct (_ || _ || bool_decide _).
Qed.

Lemma scanField_next count f st i sf :
  Forall (structEntry U) (w_next st) → Forall (structEntry U) (w_next (scanField U count f st i sf)).
Proof.
  intros H. unfold scanField. destruct (decide _); [done|]. destruct (decide _); [done|].
  destruct (_ || _ || bool_decide _) eqn:E; [done|]. simpl.
  destruct (decide (countOf _ _ = 1)); [|done].
  apply Forall_app. split; [done|]. constructor; [|done].
  apply orb_false_iff in E as [_ E]. apply bool_decide_eq_false in E.
  unfold structEntry. simpl. by apply dec_stable.
Qed.

Lemma scanFields_visited count f sfs : ∀ st i,
  w_visited (scanFields U count f st i sfs) = w_visited st.
Proof.
  induction sfs as [|sf sfs IH]; intros st i; simpl; [done|].
  by rewrite IH, scanField_visited.
Qed.

Lemma scanFields_next count f sfs : ∀ st i,
  Forall (structEntry U) (w_next st) → Forall (structEntry U) (w_next (scanFields U count f st i sfs)).
Proof.
  induction sfs as [|sf sfs IH]; intros st i H; simpl; [done|].
  by apply IH, scanField_next.
Qed.

Lemma visit_visited count st f :
  w_visited (visit U count st f) = {[typ f]} ∪ w_visited st.
Proof.
  unfold visit. case_decide as Hin.
  - set_solver.
  - by rewrite scanFields_visited.
Qed.

Lemma visit_next count st f :
  Forall (structEntry U) (w_next st) → Forall (structEntry U) (w_next (visit U count st f)).
Proof. intros H. unfold visit. case_decide; [done|]. by apply scanFields_next. Qed.

Lemma visits_visited count cur : ∀ st,
  w_visited (foldl (visit U count) st cur) = list_to_set (typ <$> cur) ∪ w_visited st.
Proof.
  induction cur as [|f cur IH]; intros st; simpl.
  - set_solver.
  - rewrite IH, visit_visited. set_solver.
Qed.

Lemma visits_next count cur : ∀ st,
  Forall (structEntry U) (w_next st) → Forall (structEntry U) (w_next (foldl (visit U count) st cur)).
Proof.
  induction cur as [|f cur IH]; intros st H; simpl; [done|].
  by apply IH, visit_next.
Qed.

(** A level whose entries were all visited before queues nothing. *)
Lemma visits_all_visited count cur : ∀ st,
  Forall (λ f, typ f ∈ w_visited st) cur → foldl (visit U count) st cur = st.
Proof.
  induction cur as [|f cur IH]; intros st H; simpl; [done|].
  apply Forall_cons in H as [Hf H].
  unfold visit at 2. rewrite decide_True by done. by apply IH.
Qed.

Lemma walk_total (fuel : nat) : ∀ st,
  Forall (structEntry U) (w_next st) →
  size (set_seq (C:=gset nat) 0 (length U) ∖ w_visited st) < fuel →
  ∃ fs, walk U fuel st = Ret fs.
Proof.
  induction fuel as [|fuel IH]; intros st Hnext Hsize; [lia|].
  simpl. destruct (w_next st) as [|f0 next0] eqn:En; [by eexists|].
  rewrite <- En in *.
  destruct (decide (Forall (λ f, typ f ∈ w_visited st) (w_next st))) as [Hall|Hsome].
  - unfold level. rewrite visits_all_visited by done.
    destruct fuel; simpl; by eexists.
  - apply not_Forall_Exists in Hsome; [|apply _].
    apply Exists_exists in Hsome as (f & Hf & Hfv).
    apply IH.
    + unfold level. apply visits_next. simpl. constructor.
    + unfold level. rewrite visits_visited. simpl.
      assert (typ f < length U) as Hlt.
      { apply structEntry_lt. rewrite Forall_forall in Hnext. by apply Hnext. }
      assert (set_seq (C:=gset nat) 0 (length U)
                ∖ (list_to_set (typ <$> w_next st) ∪ w_visited st)
              ⊂ set_seq 0 (length U) ∖ w_visited st) as Hsub.
      { apply strict_spec_alt. split; [set_solver|].
        intros Heq.
        assert (typ f ∈ set_seq (C:=gset nat) 0 (length U)
                  ∖ (list_to_set (typ <$> w_next st) ∪ w_visited st)) as Hin.
        { rewrite Heq. apply elem_of_difference. split; [|done].
          apply elem_of_set_seq. lia. }
        apply elem_of_difference in Hin as [_ Hin].
        apply Hin. apply elem_of_union_l, elem_of_list_to_set, list_elem_of_fmap. eauto. }
      apply subset_size in Hsub.
      eapply Nat.lt_le_trans; [exact Hsub|]. apply Nat.lt_succ_r. exact Hsize.
Qed.

(** [typeFields] returns for every struct type and panics on the rest;
    it never runs out of fuel. *)
Lemma foundFields_total (t : tid) :
  tKind (typeOf U t) = KStruct → ∃ fs, foundFields U t = Ret fs.
Proof.
  intros Hk. unfold foundFields. rewrite decide_True by done.
  apply walk_total; simpl.
  - by constructor.
  - rewrite difference_empty_L, size_set_seq. lia.
Qed.

Lemma typeFields_total (t : tid) :
  tKind (typeOf U t) = KStruct → ∃ fs, typeFields U t = Ret fs.
Proof.
  intros Hk. unfold typeFields. destruct (foundFields_total t Hk) as [fs ->].
  simpl. by eexists.
Qed.

End WalkTermination.

(** ** What the walk finds: the embedding tree of the root type *)

Section Embedding.
Context (U : universe).


Lemma scanField_inv t count q st i sf :
  queued U t q → tFields (typeOf U (typ q)) !! i = Some sf →
  Forall (queued U t) (w_next st) → Forall (found U t) (w_fields st) →
  Forall (queued U t) (w_next (scanField U count q st i sf))
  ∧ Forall (found U t) (w_fields (scanField U count q st i sf)).
Proof.
  intros Hq Hsf Hnext Hfields. unfold scanField.
  destruct (decide (sfPkgPath sf ≠ "")) as [|Hpkg%dec_stable]; [done|].
  destruct (decide (sfTag sf = "-")) as [|Htag]; [done|].
  assert (considered sf) as Hc by done.
  destruct (bool_decide _ || negb _ || bool_decide _) eqn:Hrec; simpl.
  - split; [done|].
    assert (found U t (leafEntry U q i sf)) as Hleaf by (by econstructor).
    destruct (decide (1 < countOf count (typ q))); repeat (apply Forall_app; split);
      by repeat constructor.
  - split; [|done].
    destruct (decide (countOf _ _ = 1)); [|done].
    apply Forall_app. split; [done|]. constructor; [|done].
    by apply (queued_child U t q i sf).
Qed.

Lemma scanFields_inv t count q sfs : ∀ st i,
  queued U t q →
  (∀ j sf, sfs !! j = Some sf → tFields (typeOf U (typ q)) !! (i + j) = Some sf) →
  Forall (queued U t) (w_next st) → Forall (found U t) (w_fields st) →
  Forall (queued U t) (w_next (scanFields U count q st i sfs))
  ∧ Forall (found U t) (w_fields (scanFields U count q st i sfs)).
Proof.
  induction sfs as [|sf sfs IH]; intros st i Hq Hsfs Hnext Hfields; simpl; [done|].
  destruct (scanField_inv t count q st i sf) as [Hn Hf]; try done.
  { specialize (Hsfs 0 sf eq_refl). by rewrite Nat.add_0_r in Hsfs. }
  apply IH; try done.
  intros j sf' Hj. specialize (Hsfs (S j) sf' Hj). by rewrite Nat.add_succ_r in Hsfs.
Qed.

Lemma visit_inv t count st q :
  queued U t q →
  Forall (queued U t) (w_next st) → Forall (found U t) (w_fields st) →
  Forall (queued U t) (w_next (visit U count st q))
  ∧ Forall (found U t) (w_fields (visit U count st q)).
Proof.
  intros Hq Hnext Hfields. unfold visit. case_decide; [done|].
  by apply scanFields_inv.
Qed.

Lemma visits_inv t count cur : ∀ st,
  Forall (queued U t) cur →
  Forall (queued U t) (w_next st) → Forall (found U t) (w_fields st) →
  Forall (queued U t) (w_next (foldl (visit U count) st cur))
  ∧ Forall (found U t) (w_fields (foldl (visit U count) st cur)).
Proof.
  induction cur as [|q cur IH]; intros st Hcur Hnext Hfields; simpl; [done|].
  apply Forall_cons in Hcur as [Hq Hcur].
  destruct (visit_inv t count st q) as [Hn Hf]; try done.
  by apply IH.
Qed.

Lemma walk_inv t fuel : ∀ st fs,
  walk U fuel st = Ret fs →
  Forall (queued U t) (w_next st) → Forall (found U t) (w_fields st) →
  Forall (found U t) fs.
Proof.
  induction fuel as [|fuel IH]; intros st fs; simpl.
  - destruct (w_next st); [|done]. by intros [= <-].
  - destruct (w_next st) as [|q0 next0] eqn:En; [by intros [= <-]|].
    rewrite <- En. intros Hw Hnext Hfields.
    destruct (visits_inv t (w_nextCount st) (w_next st)
                (mkWalk [] ∅ (w_visited st) (w_fields st))) as [Hn Hf]; try done.
    by eapply IH.
Qed.

(** Everything the walk finds is a recorded field of the embedding tree. *)
Lemma foundFields_found t fs : foundFields U t = Ret fs → Forall (found U t) fs.
Proof.
  unfold foundFields. case_decide; [|done]. intros Hw.
  eapply walk_inv; [exact Hw| |]; simpl; repeat constructor.
Qed.

(** *** Paths in the embedding tree *)

Lemma queued_index_nil t q : queued U t q → index q = [] → q = rootEntry t.
Proof.
  destruct 1 as [|q i sf _ _ _ _]; [done|]. simpl. intros H.
  by apply app_nil in H as [_ ?].
Qed.

(** The path determines the queued struct. *)
Lemma queued_index_inj t q1 : queued U t q1 → ∀ q2, queued U t q2 →
  index q1 = index q2 → q1 = q2.
Proof.
  induction 1 as [|q1 i1 sf1 Hq1 IH Hsf1 Hc1 Hr1]; intros q2 Hq2 Hidx.
  - symmetry. by eapply queued_index_nil.
  - destruct Hq2 as [|q2 i2 sf2 Hq2 Hsf2 Hc2 Hr2]; simpl in Hidx.
    + by apply app_nil in Hidx as [_ ?].
    + apply app_inj_tail in Hidx as [Hidx ->].
      specialize (IH q2 Hq2 Hidx). subst q2.
      rewrite Hsf1 in Hsf2. by injection Hsf2 as ->.
Qed.

Lemma prefix_snoc_inv (l1 l2 : list nat) (x : nat) :
  l1 `prefix_of` l2 ++ [x] → l1 = l2 ++ [x] ∨ l1 `prefix_of` l2.
Proof.
  intros [k Hk]. destruct k as [|y k _] using rev_ind.
  - left. by rewrite app_nil_r in Hk.
  - right. rewrite app_assoc in Hk. apply app_inj_tail in Hk as [-> _]. by exists k.
Qed.

(** Every step of the path to a queued struct goes through an embedded
    field the walk descends into. *)
Lemma queued_prefix t q : queued U t q → ∀ p i,
  p ++ [i] `prefix_of` index q →
  ∃ q' sf, queued U t q' ∧ index q' = p
           ∧ tFields (typeOf U (typ q')) !! i = Some sf ∧ recorded U sf = false.
Proof.
  induction 1 as [|q i0 sf0 Hq IH Hsf0 Hc0 Hr0]; intros p i Hp; simpl in Hp.
  - apply prefix_nil_inv in Hp. by apply app_nil in Hp as [_ ?].
  - apply prefix_snoc_inv in Hp as [Heq|Hp].
    + apply app_inj_tail in Heq as [-> ->]. by exists q, sf0.
    + by apply IH.
Qed.

(** Recorded fields lie on pairwise unrelated paths: a path that
    extends another one belongs to the same entry. *)
Lemma found_prefix t e1 e2 :
  found U t e1 → found U t e2 → index e1 `prefix_of` index e2 → e1 = e2.
Proof.
  intros [q1 i1 sf1 Hq1 Hsf1 Hc1 Hr1] [q2 i2 sf2 Hq2 Hsf2 Hc2 Hr2] Hp. simpl in Hp.
  apply prefix_snoc_inv in Hp as [Heq|Hp].
  - apply app_inj_tail in Heq as [Hidx ->].
    pose proof (queued_index_inj t q1 Hq1 q2 Hq2 Hidx) as ->.
    rewrite Hsf1 in Hsf2. by injection Hsf2 as ->.
  - destruct (queued_prefix t q2 Hq2 _ _ Hp) as (q' & sf' & Hq' & Hidx & Hsf' & Hr').
    pose proof (queued_index_inj t q' Hq' q1 Hq1 Hidx) as ->.
    rewrite Hsf1 in Hsf'. injection Hsf' as <-. congruence.
Qed.

(** A recorded field carries the name of the struct declaring it; for a
    field declared by the root struct this is the root's own name. *)
Lemma found_ctx_root t e :
  found U t e → length (index e) = 1 → ctx e = tName (typeOf U t).
Proof.
  intros [q i sf Hq Hsf Hc Hr] Hlen. simpl in *.
  rewrite length_app in Hlen. simpl in Hlen.
  assert (index q = []) as Hnil by (apply length_zero_iff_nil; lia).
  by rewrite (queued_index_nil t q Hq Hnil).
Qed.

End Embedding.

(** ** The resolved field set *)

Lemma dedup_steps_subseteq (l : list field) : ∀ st x,
  x ∈ (foldl dedupStep st l).2 → x ∈ st.2 ∨ x ∈ l.
Proof.
  induction l as [|f l IH]; intros st x Hx; simpl in *; [by left|].
  apply IH in Hx as [Hx|Hx]; [|right; by apply list_elem_of_further].
  destruct (dedupStep_out st f) as [[_ E]|[[_ E]|[_ (y & E & _)]]].
  - rewrite E in Hx. apply elem_of_app in Hx as [Hx|Hx%list_elem_of_singleton]; [by left|].
    right. subst. apply list_elem_of_here.
  - rewrite E in Hx. by left.
  - left. rewrite E. apply elem_of_app. by left.
Qed.

Lemma dedup_subseteq (l : list field) (x : field) : x ∈ dedup l → x ∈ l.
Proof.
  intros Hx. apply dedup_steps_subseteq in Hx as [Hx|Hx]; [|done].
  by apply elem_of_nil in Hx.
Qed.

Section Resolved.
Context (U : universe) (t : tid).

Lemma typeFields_unfold (out : list field) :
  typeFields U t = Ret out →
  ∃ work, foundFields U t = Ret work
          ∧ out = Sort byIndex_Less (dedup (Sort byName_Less work)).
Proof.
  unfold typeFields. destruct (foundFields U t) as [work| |]; simpl; try done.
  intros [= <-]. exists work. by rewrite dedupInPlace_dedup.
Qed.

Lemma typeFields_fold (work : list field) :
  foundFields U t = Ret work →
  typeFields U t = Ret (Sort byIndex_Less (dedup (Sort byName_Less work))).
Proof. intros H. unfold typeFields. rewrite H. simpl. by rewrite dedupInPlace_dedup. Qed.

Lemma typeFields_found (out : list field) :
  typeFields U t = Ret out → Forall (found U t) out.
Proof.
  intros (work & Hw & ->)%typeFields_unfold.
  apply foundFields_found in Hw. rewrite Forall_forall in Hw.
  apply Forall_forall. intros x Hx. apply Hw.
  rewrite Sort_perm in Hx. apply dedup_subseteq in Hx. by rewrite Sort_perm in Hx.
Qed.

Lemma typeFields_NoDup (out : list field) :
  typeFields U t = Ret out → NoDup (name <$> out).
Proof.
  intros (work & Hw & ->)%typeFields_unfold.
  rewrite Sort_perm. apply dedup_NoDup, byName_nameSorted, Sort_sorted, byName_strictWeak.
Qed.

(** The entries of the resolved field set named [y], from the entries
    found under that name. *)
Lemma typeFields_named (work : list field) (y : string) :
  foundFields U t = Ret work →
  ∃ out, typeFields U t = Ret out
    ∧ named y out ≡ₚ
        match named y (Sort byName_Less work) with
        | [] => []
        | a :: rest => if bool_decide (y ≠ "") && headSurvives a rest then [a] else []
        end.
Proof.
  intros Hw. eexists. split; [by apply typeFields_fold|].
  unfold named at 1. rewrite Sort_perm. fold (named y (dedup (Sort byName_Less work))).
  rewrite dedup_named; [done|].
  apply byName_nameSorted, Sort_sorted, byName_strictWeak.
Qed.

(** Two entries of a resolved field set lie on unrelated paths. *)
Lemma typeFields_independent (out : list field) (f g : field) :
  typeFields U t = Ret out → f ∈ out → g ∈ out →
  index f `prefix_of` index g → f = g.
Proof.
  intros Hout Hf Hg. apply typeFields_found in Hout. rewrite Forall_forall in Hout.
  apply (found_prefix U t); by apply Hout.
Qed.

End Resolved.

(** ** Names in the resolved field set *)

(** C5: resolving a struct type returns a field set whose bound names
    are pairwise distinct. *)
Theorem resolved_names_unique (U : universe) (t : tid) :
  tKind (typeOf U t) = KStruct →
  ∃ out, typeFields U t = Ret out ∧ NoDup (name <$> out).
Proof.
  intros Hk. destruct (typeFields_total U t Hk) as [out Hout].
  exists out. split; [done|]. by eapply typeFields_NoDup.
Qed.

Lemma resolved_names_unique_witness :
  tKind (typeOf Examples.U4 3) = KStruct
  ∧ ∃ out, typeFields Examples.U4 3 = Ret out ∧ NoDup (name <$> out).
Proof. split; [reflexivity | apply (resolved_names_unique Examples.U4 3); reflexivity]. Defined.

Lemma sortedBy_filter {A} (less : A → A → bool) (P : A → Prop) `{!∀ x, Decision (P x)}
    (l : list A) :
  sortedBy less l → sortedBy less (filter P l).
Proof.
  unfold sortedBy. induction 1 as [|x l Hs IH Hx]; [constructor|].
  rewrite filter_cons. case_decide; [|done]. constructor; [done|].
  apply Forall_forall. intros y [_ Hy]%list_elem_of_filter.
  rewrite Forall_forall in Hx. by apply Hx.
Qed.

Lemma named_Sort_perm (y : string) (work : list field) :
  named y (Sort byName_Less work) ≡ₚ named y work.
Proof. unfold named. by rewrite Sort_perm. Qed.

Lemma found_tag_name (U : universe) (t : tid) (e : field) :
  found U t e → tag e = true → name e ≠ "".
Proof.
  intros [q i sf _ _ _ _]. simpl. intros Ht%bool_decide_eq_true.
  by rewrite decide_False.
Qed.

Lemma byName_Less_shallower (a b : field) :
  name a = name b → length (index a) < length (index b) → byName_Less a b = true.
Proof.
  intros Hn Hd. unfold byName_Less.
  destruct (decide (name a ≠ name b)) as [Hne|_]; [done|].
  destruct (decide (length (index a) ≠ length (index b))); [apply Nat.ltb_lt; lia|lia].
Qed.

Lemma byName_Less_tagged (a b : field) :
  name a = name b → length (index a) = length (index b) →
  tag a = true → tag b = false → byName_Less a b = true.
Proof.
  intros Hn Hd Ha Hb. unfold byName_Less.
  destruct (decide (name a ≠ name b)) as [Hne|_]; [done|].
  destruct (decide (length (index a) ≠ length (index b))); [done|].
  destruct (decide (tag a ≠ tag b)) as [_|Hne]; [done|].
  exfalso. apply Hne. congruence.
Qed.

(** Two entries of one name, the first smaller under [byName]: that is
    the order in which the sorted list holds them. *)
Lemma named_Sort_pair (y : string) (work : list field) (a b : field) :
  named y work ≡ₚ [a; b] → byName_Less a b = true →
  named y (Sort byName_Less work) = [a; b].
Proof.
  intros Hy Hless.
  pose proof (sortedBy_filter byName_Less (λ f, name f = y) (Sort byName_Less work)
                (Sort_sorted _ byName_strictWeak work)) as Hs.
  fold (named y (Sort byName_Less work)) in Hs.
  pose proof (named_Sort_perm y work) as Hp. rewrite Hy in Hp. symmetry in Hp.
  apply Permutation_length_2_inv in Hp as [E | E]; [done|].
  rewrite E in Hs. apply StronglySorted_cons in Hs as [Hs _].
  apply Forall_cons in Hs as [Hs _]. congruence.
Qed.

(** C2, as the code has it: when the walk finds exactly two entries
    bound to [y], one explicitly tagged and one untagged, the tagged
    entry is the one entry bound to [y] in the resolved field set if it
    is no deeper than the untagged one, and is not in the resolved field
    set if it is deeper. *)
Theorem explicit_tag_precedence (U : universe) (t : tid) (work : list field)
    (y : string) (a b : field) :
  foundFields U t = Ret work →
  named y work ≡ₚ [a; b] →
  tag a = true → tag b = false →
  ∃ out, typeFields U t = Ret out
         ∧ (length (index a) ≤ length (index b) → named y out = [a])
         ∧ (length (index b) < length (index a) → a ∉ out).
Proof.
  intros Hw Hy Ha Hb.
  destruct (typeFields_named U t work y Hw) as (out & Hout & Hnamed).
  exists out. split; [done|].
  assert (a ∈ named y work) as Hin by (rewrite Hy; apply list_elem_of_here).
  assert (b ∈ named y work) as Hinb
    by (rewrite Hy; apply list_elem_of_further, list_elem_of_here).
  apply list_elem_of_filter in Hin as [Hna Hin], Hinb as [Hnb _].
  assert (y ≠ "") as Hne.
  { rewrite <- Hna. apply (found_tag_name U t); [|done].
    apply foundFields_found in Hw. rewrite Forall_forall in Hw. by apply Hw. }
  split; intros Hdepth.
  - apply Permutation_singleton_r. rewrite Hnamed.
    rewrite (named_Sort_pair y work a b Hy).
    + simpl. rewrite bool_decide_eq_true_2 by done. by rewrite Ha, Hb.
    + destruct (decide (length (index a) = length (index b))).
      * apply byName_Less_tagged; congruence.
      * apply byName_Less_shallower; [congruence|lia].
  - rewrite (named_Sort_pair y work b a) in Hnamed.
    + simpl in Hnamed. rewrite Hb, andb_false_r in Hnamed.
      apply Permutation_nil_r in Hnamed. intros Ha_out.
      assert (a ∈ named y out) as Hbad by (by apply list_elem_of_filter).
      rewrite Hnamed in Hbad. by apply elem_of_nil in Hbad.
    + rewrite Hy. apply Permutation_swap.
    + apply byName_Less_shallower; [congruence|done].
Qed.

Lemma explicit_tag_precedence_witness :
  ∃ out, typeFields Shapes.shallowTagU 2 = Ret out
         ∧ (1 ≤ 2 → named "Y" out = [mkField "Root" "Y" "A" true [0] 0])
         ∧ (2 < 1 → mkField "Root" "Y" "A" true [0] 0 ∉ out).
Proof.
  apply (explicit_tag_precedence Shapes.shallowTagU 2
           [mkField "Root" "Y" "A" true [0] 0; mkField "E" "Y" "Y" false [1; 0] 0]
           "Y" (mkField "Root" "Y" "A" true [0] 0) (mkField "E" "Y" "Y" false [1; 0] 0));
    reflexivity.
Defined.

(** For [Root{Y int; E}] with [E{Z int `sql:"Y"`}] neither entry is kept. *)
Lemma deeper_tag_does_not_survive : ¬ deeperTagSurvives Shapes.deepTagU 2.
Proof.
  intros H.
  destruct (H [mkField "Root" "Y" "Y" false [0] 0; mkField "E" "Y" "Z" true [1; 0] 0]
              "Y" (mkField "Root" "Y" "Y" false [0] 0) (mkField "E" "Y" "Z" true [1; 0] 0))
    as (out & Hout & Hn); try reflexivity.
  { simpl. lia. }
  vm_compute in Hout. injection Hout as <-. vm_compute in Hn. discriminate Hn.
Qed.

(** ** What the walk is sure to find *)

Section WalkFinds.
Context (U : universe).

Lemma countOf_insert_eq (m : gmap tid nat) (ft : tid) (n : nat) :
  countOf (<[ft := n]> m) ft = n.
Proof. unfold countOf. by rewrite lookup_insert_eq. Qed.

Lemma countOf_insert_ne (m : gmap tid nat) (ft ft' : tid) (n : nat) :
  ft ≠ ft' → countOf (<[ft := n]> m) ft' = countOf m ft'.
Proof. intros H. unfold countOf. by rewrite lookup_insert_ne. Qed.

(** The three things [scanField] can do. *)
Lemma scanField_cases count q st i sf :
  (¬ considered sf ∧ scanField U count q st i sf = st)
  ∨ (considered sf ∧ recorded U sf = true
     ∧ w_next (scanField U count q st i sf) = w_next st
     ∧ w_nextCount (scanField U count q st i sf) = w_nextCount st
     ∧ ∃ more, w_fields (scanField U count q st i sf)
               = w_fields st ++ leafEntry U q i sf :: more)
  ∨ (considered sf ∧ recorded U sf = false
     ∧ w_fields (scanField U count q st i sf) = w_fields st
     ∧ w_nextCount (scanField U count q st i sf)
       = <[followPointer U (sfType sf)
             := S (countOf (w_nextCount st) (followPointer U (sfType sf)))]> (w_nextCount st)
     ∧ w_next (scanField U count q st i sf)
       = if decide (countOf (w_nextCount st) (followPointer U (sfType sf)) = 0)
         then w_next st ++ [childEntry U q i sf] else w_next st).
Proof.
  unfold scanField, considered.
  destruct (decide (sfPkgPath sf ≠ "")) as [|Hpkg%dec_stable]; [left; split; [tauto|done]|].
  destruct (decide (sfTag sf = "-")) as [|Htag]; [left; split; [tauto|done]|].
  right. fold (recorded U sf). destruct (recorded U sf) eqn:Hrec; [left|right].
  - repeat split; try done. simpl.
    destruct (decide (1 < countOf count (typ q))).
    + exists [leafEntry U q i sf]. by rewrite <- app_assoc.
    + by exists [].
  - repeat split; try done. simpl. rewrite countOf_insert_eq.
    destruct (decide (S _ = 1)), (decide (_ = 0)); try done; lia.
Qed.

Lemma scanField_queueCounted count q st i sf :
  queueCounted st → queueCounted (scanField U count q st i sf).
Proof.
  intros [Hnd Hiff].
  destruct (scanField_cases count q st i sf)
    as [[_ ->]|[(_ & _ & En & Ec & _)|(_ & _ & _ & Ec & En)]]; [done| |].
  - unfold queueCounted. by rewrite En, Ec.
  - unfold queueCounted. rewrite En, Ec. clear En Ec.
    set (ft := followPointer U (sfType sf)) in *.
    destruct (decide (countOf (w_nextCount st) ft = 0)) as [Hz|Hnz].
    + assert (ft ∉ typ <$> w_next st) as Hnew.
      { intros Hin. apply Hiff in Hin. lia. }
      rewrite fmap_app. simpl. split.
      * apply NoDup_app. split; [done|]. split; [|apply NoDup_singleton].
        intros x Hx ->%list_elem_of_singleton. done.
      * intros ft'. rewrite elem_of_app, list_elem_of_singleton.
        destruct (decide (ft = ft')) as [<-|Hne].
        -- rewrite countOf_insert_eq. split; [by right|lia].
        -- rewrite countOf_insert_ne by done. rewrite Hiff. split; [by left|].
           intros [?|E]; [done|]. exfalso. apply Hne. symmetry. exact E.
    + split; [done|]. intros ft'.
      destruct (decide (ft = ft')) as [<-|Hne].
      * rewrite countOf_insert_eq. split; [|lia]. intros _. apply Hiff. lia.
      * by rewrite countOf_insert_ne.
Qed.

Lemma scanField_next_mono count q st i sf x :
  x ∈ w_next st → x ∈ w_next (scanField U count q st i sf).
Proof.
  intros Hx.
  destruct (scanField_cases count q st i sf)
    as [[_ ->]|[(_ & _ & -> & _)|(_ & _ & _ & _ & ->)]]; try done.
  case_decide; [|done]. apply elem_of_app. by left.
Qed.


Lemma scanField_queues count q st i sf :
  queueCounted st → considered sf → recorded U sf = false →
  followPointer U (sfType sf) ∈ typ <$> w_next (scanField U count q st i sf).
Proof.
  intros [_ Hiff] Hc Hr.
  destruct (scanField_cases count q st i sf)
    as [[Hn _]|[(_ & Hr' & _)|(_ & _ & _ & _ & ->)]]; [done|congruence|].
  case_decide as Hz.
  - rewrite fmap_app. apply elem_of_app. right. simpl. apply list_elem_of_here.
  - apply Hiff. lia.
Qed.


Lemma scanFields_queueCounted count q sfs : ∀ st i,
  queueCounted st → queueCounted (scanFields U count q st i sfs).
Proof.
  induction sfs as [|sf sfs IH]; intros st i H; simpl; [done|].
  by apply IH, scanField_queueCounted.
Qed.

Lemma scanFields_next_mono count q sfs : ∀ st i x,
  x ∈ w_next st → x ∈ w_next (scanFields U count q st i sfs).
Proof.
  induction sfs as [|sf sfs IH]; intros st i x H; simpl; [done|].
  by apply IH, scanField_next_mono.
Qed.


Lemma scanFields_queues count q sfs : ∀ st i j sf,
  queueCounted st → sfs !! j = Some sf → considered sf → recorded U sf = false →
  followPointer U (sfType sf) ∈ typ <$> w_next (scanFields U count q st i sfs).
Proof.
  induction sfs as [|sf0 sfs IH]; intros st i j sf Hq Hj Hc Hr; [done|].
  simpl. destruct j as [|j]; simpl in Hj.
  - injection Hj as ->.
    pose proof (scanField_queues count q st i sf Hq Hc Hr) as Hin.
    apply list_elem_of_fmap in Hin as (x & -> & Hx).
    apply list_elem_of_fmap. exists x. split; [done|]. by apply scanFields_next_mono.
  - eapply IH; [by apply scanField_queueCounted|done..].
Qed.






End WalkFinds.

Section Twins.
Context (U : universe) (t : tid).



Lemma foundFields_first_level :
  tKind (typeOf U t) = KStruct → foundFields U t = walk U (length U) (rootScanned U t).
Proof.
  intros Hk. unfold foundFields. rewrite decide_True by done.
  simpl. unfold level. simpl. unfold visit. simpl.
  destruct (decide (t ∈ (∅ : gset tid))) as [Hin|_]; [|done].
  by apply not_elem_of_empty in Hin.
Qed.


Lemma two_members {A} (l : list A) (x y : A) : x ∈ l → y ∈ l → x ≠ y → 2 ≤ length l.
Proof.
  intros Hx Hy Hne. destruct l as [|a [|b l]]; simpl; [|exfalso|lia].
  - by apply elem_of_nil in Hx.
  - apply list_elem_of_singleton in Hx, Hy. congruence.
Qed.


End Twins.





(** An untagged entry is never kept when the walk finds another
    entry of the same name, whatever their depths: in particular a field
    declared by the root struct is dropped as soon as an embedded struct
    declares a field bound to the same name. *)
Lemma untagged_entry_dropped (U : universe) (t : tid) (work : list field) (e e' : field) :
  foundFields U t = Ret work →
  e ∈ work → e' ∈ work → name e' = name e → e' ≠ e → tag e = false →
  ∃ out, typeFields U t = Ret out ∧ e ∉ out.
Proof.
  intros Hw He He' Hn Hne Htag.
  destruct (typeFields_named U t work (name e) Hw) as (out & Hout & Hnamed).
  exists out. split; [done|]. intros Hin.
  assert (e ∈ named (name e) out) as Hin' by (by apply list_elem_of_filter).
  rewrite Hnamed in Hin'.
  pose proof (named_Sort_perm (name e) work) as Hp.
  assert (2 ≤ length (named (name e) (Sort byName_Less work))) as Hlen.
  { rewrite Hp. apply (two_members _ e e'); [| |done]; by apply list_elem_of_filter. }
  destruct (named (name e) (Sort byName_Less work)) as [|a [|b rest]];
    simpl in Hlen; try lia.
  destruct (bool_decide (name e ≠ "") && headSurvives a (b :: rest)) eqn:Hs.
  - apply list_elem_of_singleton in Hin' as <-.
    apply andb_true_iff in Hs as [_ Hs]. simpl in Hs. by rewrite Htag in Hs.
  - by apply elem_of_nil in Hin'.
Qed.

(** C1: for [Root{X int; E}] with [E{X int}] the walk finds the root's
    own [X] and the embedded one, and the resolved field set keeps
    neither: the root-declared field does not win. *)
Theorem root_field_annihilated :
  foundFields Shapes.shadowU 2
    = Ret [mkField "Root" "X" "X" false [0] 0; mkField "E" "X" "X" false [1; 0] 0]
  ∧ typeFields Shapes.shadowU 2 = Ret [].
Proof. split; reflexivity. Qed.

Lemma found_ctx (U : universe) (t : tid) (e : field) :
  found U t e →
  ∃ q i sf, queued U t q ∧ tFields (typeOf U (typ q)) !! i = Some sf
            ∧ index e = index q ++ [i] ∧ fname e = sfName sf
            ∧ ctx e = tName (typeOf U (typ q)).
Proof. intros [q i sf Hq Hsf _ _]. by exists q, i, sf. Qed.

(** C10: every entry of a resolved field set carries as its context
    the name of the struct type that declares the field, the struct
    reached by the entry's path without its last index; for a field
    declared by the root struct this is the root type's own name, not
    the empty string. *)
Theorem field_ctx (U : universe) (t : tid) (out : list field) (e : field) :
  typeFields U t = Ret out → e ∈ out →
  (∃ q i sf, queued U t q ∧ tFields (typeOf U (typ q)) !! i = Some sf
             ∧ index e = index q ++ [i] ∧ fname e = sfName sf
             ∧ ctx e = tName (typeOf U (typ q)))
  ∧ (length (index e) = 1 → ctx e = tName (typeOf U t)).
Proof.
  intros Hout He. apply typeFields_found in Hout.
  rewrite Forall_forall in Hout. specialize (Hout e He). split.
  - by apply found_ctx.
  - by apply (found_ctx_root U t).
Qed.

Lemma field_ctx_witness :
  let e := mkField "Derived" "name" "Name" true [1] 1 in
  (∃ q i sf, queued Examples.U4 3 q ∧ tFields (typeOf Examples.U4 (typ q)) !! i = Some sf
             ∧ index e = index q ++ [i] ∧ fname e = sfName sf
             ∧ ctx e = tName (typeOf Examples.U4 (typ q)))
  ∧ (length (index e) = 1 → ctx e = tName (typeOf Examples.U4 3)).
Proof.
  apply (field_ctx Examples.U4 3
           [mkField "Base" "id" "ID" true [0; 0] 0; mkField "Derived" "name" "Name" true [1] 1]);
    [reflexivity | apply list_elem_of_further, list_elem_of_here].
Defined.

(** The root-declared [Name] of [Derived] has the context "Derived". *)
Example derived_name_ctx :
  ∃ out, typeFields Examples.U4 3 = Ret out ∧ ctx <$> named "name" out = ["Derived"].
Proof. eexists. split; reflexivity. Qed.

(** ** Stores and loads along index paths *)

Lemma storeFrom_frame (p : list nat) : ∀ (q : list nat) (later : bool) (new v : value),
  ¬ p `prefix_of` q → ¬ q `prefix_of` p →
  fieldByIndexFrom later (storeFrom later p new v) q = fieldByIndexFrom later v q.
Proof.
  induction p as [|x p IH]; intros q later new v Hpq Hqp.
  { exfalso. apply Hpq, prefix_nil. }
  destruct q as [|y q]; [exfalso; apply Hqp, prefix_nil|].
  assert (∀ fs, res_bind (Value_Field (VStruct (alter (storeFrom true p new) x fs)) y)
                  (λ w, fieldByIndexFrom true w q)
                = res_bind (Value_Field (VStruct fs) y) (λ w, fieldByIndexFrom true w q)) as Hfs.
  { intros fs. simpl. destruct (decide (x = y)) as [->|Hne].
    - rewrite list_lookup_alter_eq. destruct (fs !! y) as [w|]; simpl; [|done].
      apply IH.
      + intros Hp. apply Hpq. by apply prefix_cons.
      + intros Hp. apply Hqp. by apply prefix_cons.
    - by rewrite list_lookup_alter_ne. }
  destruct v as [z|s|fs|[w|]]; try done.
  - destruct later; apply Hfs.
  - destruct w as [z|s|fs|o]; try done. destruct later; [|done]. apply Hfs.
Qed.

(** A store is read back through the same path. *)
Lemma fieldByIndexFrom_storeFrom (p : list nat) : ∀ (later : bool) (v cur new : value),
  fieldByIndexFrom later v p = Ret cur →
  fieldByIndexFrom later (storeFrom later p new v) p = Ret new.
Proof.
  induction p as [|x p IH]; intros later v cur new Hget; [done|].
  assert (∀ fs, res_bind (Value_Field (VStruct fs) x) (λ w, fieldByIndexFrom true w p)
                = Ret cur →
                res_bind (Value_Field (VStruct (alter (storeFrom true p new) x fs)) x)
                  (λ w, fieldByIndexFrom true w p) = Ret new) as Hfs.
  { intros fs. simpl. rewrite list_lookup_alter_eq.
    destruct (fs !! x) as [w|]; simpl; [|done]. apply IH. }
  destruct v as [z|s|fs|[w|]]; simpl in Hget.
  - by destruct later.
  - by destruct later.
  - destruct later; by apply Hfs.
  - destruct later; [|done]. destruct w as [z|s|fs|o]; try done. by apply Hfs.
  - by destruct later.
Qed.

Lemma storeAt_struct (p : list nat) (new : value) (fs : list value) :
  p ≠ [] → ∃ fs', storeAt p new (VStruct fs) = VStruct fs'.
Proof. destruct p; [done|]. intros _. simpl. by eexists. Qed.

(** A store leaves the fields on unrelated paths as they were. *)
Lemma FieldByIndex_storeAt (p q : list nat) (new e : value) :
  ¬ p `prefix_of` q → ¬ q `prefix_of` p →
  FieldByIndex (storeAt p new e) q = FieldByIndex e q.
Proof.
  intros Hpq Hqp. unfold FieldByIndex.
  destruct e as [z|s|fs|o]; try (destruct p; [exfalso; apply Hpq, prefix_nil|done]).
  - destruct (storeAt_struct p new fs) as [fs' E].
    { intros ->. apply Hpq, prefix_nil. }
    rewrite E, <- E. by apply storeFrom_frame.
  - destruct p; [exfalso; apply Hpq, prefix_nil|]. simpl. by destruct o as [[]|].
Qed.


Lemma applyWrites_frame (q : list nat) (ts : list target) : ∀ ws e,
  Forall (unrelated q) ts →
  FieldByIndex (applyWrites ts ws e) q = FieldByIndex e q.
Proof.
  induction ts as [|tg ts IH]; intros ws e Hts; [by destruct ws|].
  apply Forall_cons in Hts as [Htg Hts].
  destruct ws as [|w ws]; [by destruct tg|].
  destruct tg as [a cur|]; simpl; [|by apply IH].
  destruct w as [v|]; [|by apply IH].
  rewrite IH by done. destruct Htg. by apply FieldByIndex_storeAt.
Qed.

(** ** The name lookup of [scan] *)

Lemma fieldMap_steps (l : list field) : ∀ (m : gmap string field) c g,
  foldl (λ m f, <[name f := f]> m) m l !! c = Some g →
  (g ∈ l ∧ name g = c) ∨ m !! c = Some g.
Proof.
  induction l as [|f l IH]; intros m c g H; simpl in H; [by right|].
  apply IH in H as [[Hin Hn]|H].
  - left. split; [by apply list_elem_of_further|done].
  - destruct (decide (name f = c)) as [<-|Hne].
    + rewrite lookup_insert_eq in H. injection H as <-. left.
      split; [apply list_elem_of_here|done].
    + rewrite lookup_insert_ne in H by done. by right.
Qed.

Lemma fieldMap_lookup (fields : list field) (c : string) (g : field) :
  fieldMap fields !! c = Some g → g ∈ fields ∧ name g = c.
Proof. intros H. by apply fieldMap_steps in H as [?|H]. Qed.

(** In a list without repeated names every field is found under its name. *)
Lemma fieldMap_lookup_NoDup (fields : list field) (g : field) :
  NoDup (name <$> fields) → g ∈ fields → fieldMap fields !! name g = Some g.
Proof.
  unfold fieldMap. intros Hnd Hg.
  assert (∀ l (m : gmap string field),
            NoDup (name <$> l) →
            (g ∈ l ∨ (m !! name g = Some g ∧ name g ∉ name <$> l)) →
            foldl (λ m f, <[name f := f]> m) m l !! name g = Some g) as H.
  { clear. induction l as [|f l IH]; intros m Hnd Hg; simpl.
    - destruct Hg as [Hg|[Hg _]]; [by apply elem_of_nil in Hg|done].
    - apply NoDup_cons in Hnd as [Hf Hnd]. apply IH; [done|].
      destruct Hg as [Hg|[Hg Hn]].
      + apply elem_of_cons in Hg as [->|Hg]; [|by left].
        right. split; [apply lookup_insert_eq|done].
      + right. apply not_elem_of_cons in Hn as [Hn1 Hn2].
        split; [|done]. by rewrite lookup_insert_ne. }
  apply H; [done|by left].
Qed.

Lemma columnTarget_addr (fm : gmap string field) (elem : option value) (c : string)
    (a : list nat) (cur : value) :
  columnTarget fm elem c = Ret (TField a cur) → ∃ g, fm !! c = Some g ∧ a = index g.
Proof.
  unfold columnTarget. destruct (fm !! c) as [g|]; [|done].
  destruct elem as [e|]; [|done]. destruct (FieldByIndex e (index g)); simpl; try done.
  intros [= <- _]. by exists g.
Qed.

Lemma columnTargets_addr (fm : gmap string field) (elem : option value)
    (cols : list string) : ∀ ts,
  columnTargets fm elem cols = Ret ts →
  Forall (λ tg, match tg with
                | TField a _ => ∃ c g, c ∈ cols ∧ fm !! c = Some g ∧ a = index g
                | TRawBytes => True
                end) ts.
Proof.
  induction cols as [|c cols IH]; intros ts; simpl; [by intros [= <-]|].
  destruct (columnTarget fm elem c) as [tg| |] eqn:Etg; simpl; try done.
  destruct (columnTargets fm elem cols) as [ts'| |]; simpl; try done.
  intros [= <-]. constructor.
  - destruct tg as [a cur|]; [|done].
    apply columnTarget_addr in Etg as (g & Hg & ->). exists c, g.
    split; [apply list_elem_of_here|done].
  - eapply Forall_impl; [by apply IH|]. intros [a cur|]; [|done].
    intros (c' & g & Hc & Hg & ->). exists c', g. split; [by apply list_elem_of_further|done].
Qed.

(** ** Row scans *)

(** C9: after a successful scan with the field set resolved for a
    type, every field of the set whose name the row source did not
    report reads as it did before. *)
Theorem missing_column_untouched (U : universe) (t : tid) (fields : list field)
    (e : value) (rows : Rows) (r : scanResult) (f : field) :
  typeFields U t = Ret fields →
  scan (VPtr (Some e)) fields rows = Ret r →
  sr_err r = None →
  f ∈ fields → name f ∉ (rows_Columns rows).1 →
  ∃ e', sr_dest r = VPtr (Some e')
        ∧ FieldByIndex e' (index f) = FieldByIndex e (index f).
Proof.
  intros Hfields Hscan Herr Hf Hcol. unfold scan in Hscan. simpl in Hscan.
  destruct (rows_Columns rows) as [cols [err|]] eqn:Ecols; simpl in *.
  { injection Hscan as <-. done. }
  destruct (columnTargets (fieldMap fields) (Some e) cols) as [ts| |] eqn:Ets;
    simpl in Hscan; try done.
  injection Hscan as <-. simpl. eexists. split; [done|].
  apply applyWrites_frame.
  eapply Forall_impl; [by eapply columnTargets_addr|].
  intros [a cur|]; [|done]. intros (c & g & Hc & Hg & ->). simpl.
  apply fieldMap_lookup in Hg as [Hg Hn].
  split; intros Hp.
  - pose proof (typeFields_independent U t fields g f Hfields Hg Hf Hp). congruence.
  - pose proof (typeFields_independent U t fields f g Hfields Hf Hg Hp). congruence.
Qed.

Lemma missing_column_untouched_witness :
  ∃ e', VPtr (Some (Examples.derived 1 "bob")) = VPtr (Some e')
        ∧ FieldByIndex e' [0; 0] = FieldByIndex (Examples.derived 1 "al") [0; 0].
Proof.
  apply (missing_column_untouched Examples.U4 3
           [mkField "Base" "id" "ID" true [0; 0] 0; mkField "Derived" "name" "Name" true [1] 1]
           (Examples.derived 1 "al") (Examples.oneRow ["name"] [VStr "bob"])
           (mkScanResult None (VPtr (Some (Examples.derived 1 "bob"))) [])
           (mkField "Base" "id" "ID" true [0; 0] 0)).
  - reflexivity.
  - reflexivity.
  - reflexivity.
  - apply list_elem_of_here.
  - simpl. intros H. apply list_elem_of_singleton in H. discriminate H.
Defined.

(** The targets handed to the row source for columns without a field. *)
Lemma columnTargets_unmapped (fm : gmap string field) (elem : option value)
    (cols : list string) :
  Forall (λ c, fm !! c = None) cols →
  columnTargets fm elem cols = Ret (replicate (length cols) TRawBytes).
Proof.
  induction 1 as [|c cols Hc _ IH]; [done|].
  simpl. unfold columnTarget. rewrite Hc. simpl. by rewrite IH.
Qed.

Lemma applyWrites_discard (n : nat) : ∀ ws e,
  applyWrites (replicate n TRawBytes) ws e = e.
Proof. induction n as [|n IH]; intros [|w ws] e; simpl; by try apply IH. Qed.

(** C7: [scan] returns an error exactly when the row source returns
    one, from [Columns] or from [Scan] on the targets built, and returns
    that very error; a column without a field gets a discard target and
    a row whose columns are all of that kind is scanned without any
    failure of [scan]'s own, the destination staying as it was. *)
Theorem scan_error_passthrough (p : option value) (fields : list field) (rows : Rows) :
  (∀ e, (∃ r, scan (VPtr p) fields rows = Ret r ∧ sr_err r = Some e)
        ↔ (rows_Columns rows).2 = Some e
          ∨ ((rows_Columns rows).2 = None
             ∧ ∃ values, columnTargets (fieldMap fields) p (rows_Columns rows).1 = Ret values
                         ∧ (rows_Scan rows values).2 = Some e))
  ∧ (∀ col, fieldMap fields !! col = None →
            columnTarget (fieldMap fields) p col = Ret TRawBytes)
  ∧ (Forall (λ c, fieldMap fields !! c = None) (rows_Columns rows).1 →
     (rows_Columns rows).2 = None →
     scan (VPtr p) fields rows
     = Ret (mkScanResult
              (rows_Scan rows (replicate (length (rows_Columns rows).1) TRawBytes)).2
              (VPtr p) (rows_Columns rows).1)).
Proof.
  split; [|split].
  - intros e. unfold scan. simpl.
    destruct (rows_Columns rows) as [cols [err|]]; simpl.
    + split.
      * intros (r & [= <-] & Hr). by left.
      * intros [[= ->]|[[=] _]]. eexists. by split.
    + destruct (columnTargets (fieldMap fields) p cols) as [values| |]; simpl.
      * split.
        -- intros (r & [= <-] & Hr). right. split; [done|]. by exists values.
        -- intros [[=]|[_ (vs & [= <-] & Hv)]]. eexists. by split.
      * split; [by intros (r & [=] & _)|]. by intros [[=]|[_ (vs & [=] & _)]].
      * split; [by intros (r & [=] & _)|]. by intros [[=]|[_ (vs & [=] & _)]].
  - intros col Hcol. unfold columnTarget. by rewrite Hcol.
  - intros Hcols Herr. unfold scan. simpl.
    destruct (rows_Columns rows) as [cols err]. simpl in *. subst err.
    rewrite columnTargets_unmapped by done. simpl.
    f_equal. f_equal.
    + destruct p as [e|]; simpl; [|done]. by rewrite applyWrites_discard.
    + unfold unmapped. clear -Hcols. induction Hcols as [|c cols Hc _ IH]; [done|].
      by rewrite filter_cons_True, IH.
Qed.

(** A column without a field is announced and its value dropped. *)
Example unknown_column_discarded :
  Scan Examples.U4 (Examples.derivedPtr 1 "al")
       (Examples.oneRow ["name"; "age"] [VStr "bob"; VInt 30])
  = Ret (mkScanResult None (VPtr (Some (Examples.derived 1 "bob"))) ["age"]).
Proof. reflexivity. Qed.

(** The error of [Columns] comes back as it is, the destination untouched. *)
Example columns_error_returned :
  Scan Examples.U4 (Examples.derivedPtr 1 "al") (Examples.brokenRows "boom")
  = Ret (mkScanResult (Some "boom") (VPtr (Some (Examples.derived 1 "al"))) []).
Proof. reflexivity. Qed.

(** A nil [*Derived] passes the destination check; reflection panics
    once a reported column is bound to a field. *)
Example nil_destination_mapped_column :
  Scan Examples.U4 (IVal 4 (VPtr None)) Examples.bobRows
  = Panic (ReflectPanic "reflect: call of reflect.Value.FieldByIndex on zero Value").
Proof. reflexivity. Qed.

(** ** The destination check *)


Lemma notPtrToStruct_false (U : universe) (ty : tid) :
  notPtrToStruct U ty = false ↔ ptrToStruct U ty.
Proof.
  unfold notPtrToStruct, ptrToStruct. rewrite orb_false_iff, !bool_decide_eq_false.
  split; intros [H1 H2]; split; try (by apply dec_stable); by intros ?.
Qed.

Lemma notPtrToStruct_true (U : universe) (ty : tid) :
  notPtrToStruct U ty = true ↔ ¬ ptrToStruct U ty.
Proof.
  rewrite <- notPtrToStruct_false. by destruct (notPtrToStruct U ty).
Qed.


Lemma ownPanic_bind {A B} (m : res A) (k : A → res B) :
  ownPanic (res_bind m k) → ownPanic m ∨ ∃ a, m = Ret a ∧ ownPanic (k a).
Proof.
  unfold ownPanic. destruct m as [a|p|]; simpl; intros H.
  - right. by exists a.
  - left. by injection H as ->.
  - discriminate H.
Qed.

Lemma Value_Field_panic (v : value) (i : nat) : ¬ ownPanic (Value_Field v i).
Proof. unfold ownPanic. destruct v as [z|s|fs|o]; simpl; try done. by destruct (fs !! i). Qed.

Lemma fieldByIndexFrom_panic (idx : list nat) : ∀ later v,
  ¬ ownPanic (fieldByIndexFrom later v idx).
Proof.
  induction idx as [|x idx IH]; intros later v; simpl; [done|].
  intros [H|(v1 & _ & [H|(w & _ & H)]%ownPanic_bind)]%ownPanic_bind.
  - unfold ownPanic in H. by destruct later, v as [z|s|fs|[w|]].
  - by apply Value_Field_panic in H.
  - by apply IH in H.
Qed.

Lemma columnTarget_panic (fm : gmap string field) (elem : option value) (c : string) :
  ¬ ownPanic (columnTarget fm elem c).
Proof.
  unfold columnTarget. destruct (fm !! c) as [g|]; [|done].
  destruct elem as [e|]; [|done].
  intros [H|(v & _ & H)]%ownPanic_bind; [|done].
  unfold FieldByIndex in H. destruct e as [z|s|fs|o]; try done.
  by apply fieldByIndexFrom_panic in H.
Qed.

Lemma columnTargets_panic (fm : gmap string field) (elem : option value)
    (cols : list string) :
  ¬ ownPanic (columnTargets fm elem cols).
Proof.
  induction cols as [|c cols IH]; simpl; [done|].
  intros [H|(tg & _ & [H|(ts & _ & H)]%ownPanic_bind)]%ownPanic_bind; try done.
  by apply columnTarget_panic in H.
Qed.

Lemma scan_panic (destv : value) (fields : list field) (rows : Rows) :
  ¬ ownPanic (scan destv fields rows).
Proof.
  unfold scan. intros [H|(elem & _ & H)]%ownPanic_bind.
  - by destruct destv.
  - destruct (rows_Columns rows) as [cols [err|]]; [done|].
    apply ownPanic_bind in H as [H|(ts & _ & H)]; [|done].
    by apply columnTargets_panic in H.
Qed.

(** C8, as the code has it: [Scan] and [Session.Scan] panic with "dest
    must be pointer to struct" exactly when the dynamic type of the
    destination is not a pointer to a struct; when it is, nil or not,
    the field set is resolved and the row scan proceeds. *)
Theorem destination_check (U : universe) (ty : tid) (v : value) (rows : Rows) :
  (Scan U (IVal ty v) rows = Panic DestNotPtrToStruct ↔ ¬ ptrToStruct U ty)
  ∧ (∀ s, (Session_Scan U s (IVal ty v) rows).1 = Panic DestNotPtrToStruct
          ↔ ¬ ptrToStruct U ty)
  ∧ (ptrToStruct U ty →
     ∃ fields, typeFields U (tElem (typeOf U ty)) = Ret fields
               ∧ Scan U (IVal ty v) rows = scan v fields rows).
Proof.
  split; [|split].
  - unfold Scan. destruct (notPtrToStruct U ty) eqn:E.
    + apply notPtrToStruct_true in E. by split.
    + apply notPtrToStruct_false in E. split; [|done].
      destruct (typeFields_total U _ (proj2 E)) as [fields ->]. simpl.
      intros H. by apply scan_panic in H.
  - intros s. unfold Session_Scan. destruct (notPtrToStruct U ty) eqn:E.
    + apply notPtrToStruct_true in E. by split.
    + apply notPtrToStruct_false in E. split; [|done]. simpl.
      unfold Session_fields. destruct (finfos s !! _) as [fields|]; simpl.
      * intros H. by apply scan_panic in H.
      * destruct (typeFields_total U _ (proj2 E)) as [fields ->]. simpl.
        intros H. by apply scan_panic in H.
  - intros Hp. destruct (typeFields_total U _ (proj2 Hp)) as [fields Hf].
    exists fields. split; [done|]. unfold Scan.
    apply notPtrToStruct_false in Hp. by rewrite Hp, Hf.
Qed.


(** A nil [*Derived] and a row without columns: [Scan] returns nil. *)
Lemma nil_pointer_passes_check :
  ¬ checkedForNil Examples.U4 (IVal 4 (VPtr None)) (Examples.oneRow [] []).
Proof.
  intros [_ H]. destruct H as [p Hp]; [|discriminate Hp].
  intros (ty & v & [=] & _).
Qed.

(** ** Sessions *)

Lemma Session_fields_sound (U : universe) (s : Session) (t : tid) :
  cacheSound U s → cacheSound U (Session_fields U s t).2.
Proof.
  intros Hs. unfold Session_fields. destruct (finfos s !! t) eqn:E; [done|].
  destruct (typeFields U t) as [fs| |] eqn:Et; simpl; try done.
  intros k v. simpl. destruct (decide (t = k)) as [<-|Hne].
  - rewrite lookup_insert_eq. by intros [= <-].
  - rewrite lookup_insert_ne by done. apply Hs.
Qed.

Lemma afterCall_sound (U : universe) (s : Session) (c : sessionCall) :
  cacheSound U s → cacheSound U (afterCall U s c).
Proof.
  intros Hs. destruct c as [[|ty v] rows|[|ty v]]; simpl; try done.
  - destruct (notPtrToStruct U ty); [done|]. simpl. by apply Session_fields_sound.
  - by apply Session_fields_sound.
Qed.

Lemma reachable_sound (U : universe) (s : Session) : reachable U s → cacheSound U s.
Proof.
  intros [calls ->]. induction calls as [|c calls IH] using rev_ind.
  - intros k fs. simpl. by rewrite lookup_empty.
  - rewrite foldl_app. simpl. by apply afterCall_sound.
Qed.

(** ** The resolved field set does not depend on how ties are sorted *)

Lemma byName_total_found (U : universe) (t : tid) (x y : field) :
  found U t x → found U t y →
  byName_Less x y = false → byName_Less y x = false → x = y.
Proof.
  intros Hx Hy H1 H2. unfold byName_Less, byIndex_Less in H1, H2.
  assert (name x = name y) as En.
  { destruct (decide (name x = name y)) as [|Hn]; [done|]. exfalso.
    rewrite decide_True in H1 by done.
    rewrite decide_True in H2 by (intros ?; by apply Hn).
    pose proof (ltb_total _ _ Hn H1). congruence. }
  rewrite decide_False in H1 by (intros Hn; by apply Hn).
  rewrite decide_False in H2 by (intros Hn; by apply Hn).
  assert (length (index x) = length (index y)) as El.
  { destruct (decide (length (index x) = length (index y))) as [|Hn]; [done|]. exfalso.
    rewrite decide_True in H1 by done. rewrite decide_True in H2 by lia.
    apply Nat.ltb_ge in H1, H2. lia. }
  rewrite decide_False in H1 by (intros Hn; by apply Hn).
  rewrite decide_False in H2 by (intros Hn; by apply Hn).
  assert (tag x = tag y) as Et.
  { destruct (decide (tag x = tag y)) as [|Hn]; [done|]. exfalso.
    rewrite decide_True in H1 by done.
    rewrite decide_True in H2 by (intros ?; by apply Hn).
    congruence. }
  rewrite decide_False in H1 by (intros Hn; by apply Hn).
  rewrite decide_False in H2 by (intros Hn; by apply Hn).
  apply (found_prefix U t); [done|done|].
  by rewrite (indexLess_total _ _ H1 H2).
Qed.

Lemma isSortOf_unique {A} (less : A → A → bool) (l s1 s2 : list A) :
  (∀ x y, x ∈ l → y ∈ l → less x y = false → less y x = false → x = y) →
  isSortOf less l s1 → isSortOf less l s2 → s1 = s2.
Proof.
  intros Htot [Hp1 Hs1] [Hp2 Hs2].
  apply (StronglySorted_unique_strong (λ a b, less b a = false)); [|done|done|].
  - intros x1 x2 Hx1 Hx2 H12 H21. rewrite <- Hp1 in Hx1. rewrite <- Hp2 in Hx2.
    symmetry. by apply Htot.
  - by rewrite <- Hp1, <- Hp2.
Qed.

Lemma typeFields_resolves (U : universe) (t : tid) (out : list field) :
  typeFields U t = Ret out → resolves U t out.
Proof.
  unfold typeFields. destruct (foundFields U t) as [work| |] eqn:Ew; simpl; try done.
  intros [= <-]. exists work, (Sort byName_Less work). split; [done|].
  split; apply Sort_isSortOf; [apply byName_strictWeak | apply byIndex_strictWeak].
Qed.

Lemma resolves_unique (U : universe) (t : tid) (o1 o2 : list field) :
  resolves U t o1 → resolves U t o2 → o1 = o2.
Proof.
  intros (w1 & s1 & Hw1 & Hs1 & Ho1) (w2 & s2 & Hw2 & Hs2 & Ho2).
  rewrite Hw1 in Hw2. injection Hw2 as <-.
  pose proof (foundFields_found U t w1 Hw1) as Hfound. rewrite Forall_forall in Hfound.
  assert (s1 = s2) as <-.
  { apply (isSortOf_unique byName_Less w1); [|done|done].
    intros x y Hx Hy. apply (byName_total_found U t); by apply Hfound. }
  apply (isSortOf_unique byIndex_Less (dedupInPlace s1)); [|done|done].
  intros x y Hx Hy H1 H2. rewrite dedupInPlace_dedup in Hx, Hy.
  apply dedup_subseteq in Hx, Hy. destruct Hs1 as [Hp _]. rewrite <- Hp in Hx, Hy.
  apply (found_prefix U t); [by apply Hfound|by apply Hfound|].
  unfold byIndex_Less in *. by rewrite (indexLess_total _ _ H1 H2).
Qed.

(** [typeFields] with the insertion sort returns what every run with
    another [sort.Sort] returns. *)
Lemma resolves_typeFields (U : universe) (t : tid) (out : list field) :
  resolves U t out ↔ typeFields U t = Ret out.
Proof.
  split; [|apply typeFields_resolves].
  intros Hr. pose proof Hr as (work & _ & Hw & _).
  pose proof (typeFields_fold U t work Hw) as Ht.
  by rewrite (resolves_unique U t _ _ Hr (typeFields_resolves U t _ Ht)).
Qed.



(** ** The Base/Derived scenario *)

(** C4: resolving [Derived] gives exactly two entries, bound to "id" at
    path [0,0] and to "name" at path [1]; scanning the row ("bob", 7)
    reported under columns ["name","id"] into any [Derived] stores
    "bob" in [Name] and 7 in [ID] and returns no error, through [Scan]
    and through a fresh session alike. *)
Theorem base_derived_scenario :
  (∃ f1 f2, typeFields Examples.U4 3 = Ret [f1; f2]
     ∧ name f1 = "id" ∧ index f1 = [0; 0]
     ∧ name f2 = "name" ∧ index f2 = [1])
  ∧ ∀ id0 nm0,
      (∃ r, Scan Examples.U4 (Examples.derivedPtr id0 nm0) Examples.bobRows = Ret r
            ∧ sr_err r = None
            ∧ sr_dest r = VPtr (Some (Examples.derived 7 "bob")))
      ∧ (∃ r s, Session_Scan Examples.U4 NewSession (Examples.derivedPtr id0 nm0)
                  Examples.bobRows = (Ret r, s)
            ∧ sr_err r = None
            ∧ sr_dest r = VPtr (Some (Examples.derived 7 "bob"))).
Proof.
  split.
  - eexists _, _. split; [vm_compute; reflexivity|]. by repeat split.
  - intros id0 nm0. split.
    + eexists. split; [vm_compute; reflexivity|]. by split.
    + eexists _, _. split; [vm_compute; reflexivity|]. by split.
Qed.

(** * Further properties of the code *)

(** ** Tags and tag options *)

Lemma substring_0_0 (s : string) : substring 0 0 s = "".
Proof. by destruct s. Qed.

Lemma index_comma_cons (c : ascii) (rest : string) :
  String.index 0 "," (String c rest)
  = if decide (c = ","%char) then Some 0 else S <$> String.index 0 "," rest.
Proof.
  cbn [String.index]. destruct (String.prefix "," (String c rest)) eqn:Hp.
  - apply String.prefix_correct in Hp. cbn [substring String.length] in Hp.
    rewrite substring_0_0 in Hp. injection Hp as ->. by rewrite decide_True.
  - rewrite decide_False.
    + by destruct (String.index 0 "," rest).
    + intros ->. assert (String.prefix "," (String "," rest) = true) as Ht.
      { apply String.prefix_correct. cbn [substring String.length].
        by rewrite substring_0_0. }
      congruence.
Qed.

Lemma substring_all (s : string) : substring 0 (String.length s) s = s.
Proof. induction s as [|c s IH]; [done|]. simpl. by rewrite IH. Qed.

(** [parseTag] read character by character. *)
Lemma parseTag_cons (c : ascii) (rest : string) :
  parseTag (String c rest)
  = if decide (c = ","%char) then (EmptyString, rest)
    else (String c (parseTag rest).1, (parseTag rest).2).
Proof.
  unfold parseTag. rewrite index_comma_cons.
  destruct (decide (c = ","%char)) as [->|Hc].
  - cbn [substring String.length Nat.add Nat.sub fst snd].
    by rewrite Nat.sub_0_r, substring_all.
  - destruct (String.index 0 "," rest) as [i|]; cbn [fmap option_fmap option_map]; [|done].
    cbn [substring String.length Nat.add Nat.sub fst snd]. done.
Qed.

Lemma parseTag_empty : parseTag "" = ("", "").
Proof. reflexivity. Qed.

Lemma append_cons (c : ascii) (s t : string) : String c s +:+ t = String c (s +:+ t).
Proof. reflexivity. Qed.

Lemma append_nil (t : string) : "" +:+ t = t.
Proof. reflexivity. Qed.

Lemma commaFree_nil : commaFree "".
Proof. unfold commaFree. simpl. apply not_elem_of_nil. Qed.

Lemma commaFree_cons (c : ascii) (s : string) :
  commaFree (String c s) ↔ c ≠ ","%char ∧ commaFree s.
Proof.
  unfold commaFree. simpl. rewrite not_elem_of_cons. split; intros [H1 H2]; split; auto.
Qed.

(** X1: [parseTag] cuts a tag at its first comma: the name holds no
    comma; if the tag holds one, the tag is the name, a comma and the
    options; if it holds none, the name is the whole tag and the options
    are empty. *)
Theorem parseTag_splits (tg : string) :
  commaFree (parseTag tg).1
  ∧ ((¬ commaFree tg ∧ tg = (parseTag tg).1 +:+ "," +:+ (parseTag tg).2)
     ∨ (commaFree tg ∧ parseTag tg = (tg, ""))).
Proof.
  induction tg as [|c tg [IHn IH]].
  - split; [apply commaFree_nil|]. right. split; [apply commaFree_nil|done].
  - rewrite parseTag_cons. destruct (decide (c = ","%char)) as [->|Hc]; simpl.
    + split; [apply commaFree_nil|]. left. split; [|done].
      rewrite commaFree_cons. tauto.
    + split; [by apply commaFree_cons|].
      destruct IH as [[Hn Heq]|[Hf Heq]].
      * left. split; [rewrite commaFree_cons; tauto|].
        rewrite append_cons. by rewrite <- Heq.
      * right. split; [by apply commaFree_cons|]. by rewrite Heq.
Qed.

(** X2: a name without a comma, a comma and any options parse back
    into that name and those options. *)
Theorem parseTag_join (n o : string) :
  commaFree n → parseTag (n +:+ "," +:+ o) = (n, o).
Proof.
  induction n as [|c n IH]; intros Hn.
  - rewrite append_nil. change ("," +:+ o) with (String ","%char o).
    rewrite parseTag_cons. by rewrite decide_True.
  - apply commaFree_cons in Hn as [Hc Hn]. rewrite append_cons, parseTag_cons.
    rewrite decide_False by done. by rewrite IH.
Qed.

Lemma parseTag_join_witness :
  commaFree "name" ∧ parseTag ("name" +:+ "," +:+ "omitempty,string") = ("name", "omitempty,string").
Proof.
  assert (commaFree "name") as H.
  { unfold commaFree. simpl. intros Hin.
    repeat (apply elem_of_cons in Hin as [Hin|Hin]; [discriminate Hin|]).
    by apply elem_of_nil in Hin. }
  split; [exact H | apply (parseTag_join "name" "omitempty,string" H)].
Defined.

Lemma tokens_parseTag (s : string) :
  s ≠ "" → tokens s = (parseTag s).1 :: tokens (parseTag s).2.
Proof.
  induction s as [|c s IH]; [done|]. intros _.
  rewrite parseTag_cons. simpl. destruct (decide (c = ","%char)); [done|].
  destruct s as [|c' s']; [done|]. by rewrite IH.
Qed.

Lemma parseTag_rest_shorter (s : string) :
  s ≠ "" → String.length (parseTag s).2 < String.length s.
Proof.
  induction s as [|c s IH]; [done|]. intros _.
  rewrite parseTag_cons. destruct (decide (c = ","%char)); simpl; [lia|].
  destruct s as [|c' s']; [simpl; lia|]. specialize (IH ltac:(done)). simpl in *. lia.
Qed.

Lemma not_in_no_tokens (opt : string) : bool_decide (opt ∈ tokens "") = false.
Proof. apply bool_decide_eq_false_2. simpl. apply not_elem_of_nil. Qed.

Lemma containsLoop_tokens (opt : string) (fuel : nat) : ∀ s,
  String.length s ≤ fuel →
  containsLoop fuel s opt = Ret (bool_decide (opt ∈ tokens s)).
Proof.
  induction fuel as [|fuel IH]; intros s Hlen.
  - destruct s; [|simpl in Hlen; lia]. by rewrite not_in_no_tokens.
  - cbn [containsLoop]. destruct (decide (s = "")) as [->|Hs].
    { by rewrite not_in_no_tokens. }
    change (match String.index 0 "," s with
            | Some i => (substring 0 i s, substring (i + 1) (String.length s - (i + 1)) s)
            | None => (s, "")
            end) with (parseTag s).
    rewrite (tokens_parseTag s Hs).
    pose proof (parseTag_rest_shorter s Hs) as Hshort.
    destruct (decide ((parseTag s).1 = opt)) as [E|Hne].
    + rewrite (decide_True (P := (parseTag s).1 = opt)) by done.
      rewrite bool_decide_eq_true_2; [done|]. rewrite E. apply list_elem_of_here.
    + rewrite (decide_False (P := (parseTag s).1 = opt)) by done.
      rewrite IH by (apply Nat.lt_succ_r; eapply Nat.lt_le_trans; [exact Hshort|exact Hlen]).
      f_equal. apply bool_decide_ext.
      rewrite elem_of_cons. split; [by right|]. intros [E|?]; [|done]. by exfalso.
Qed.

Lemma contains_spec (o : tagOptions) (opt : string) :
  contains o opt = Ret (bool_decide (opt ∈ tokens o)).
Proof.
  unfold contains. destruct (decide (String.length o = 0)) as [Hz|Hnz].
  - destruct o; [|done]. by rewrite not_in_no_tokens.
  - by apply containsLoop_tokens.
Qed.

(** X3: [tagOptions.contains] returns, its fuel sufficing, and answers
    whether [opt] is one of the comma-separated tokens of the options,
    where a trailing comma opens no further token. *)
Theorem contains_tokens (o : tagOptions) (opt : string) :
  contains o opt = Ret (bool_decide (opt ∈ tokens o)).
Proof.
  unfold contains. destruct (decide (String.length o = 0)) as [Hz|Hnz].
  - destruct o as [|c o]; [|discriminate Hz]. by rewrite not_in_no_tokens.
  - apply containsLoop_tokens. lia.
Qed.

Lemma tokens_commaFree (s : string) : Forall commaFree (tokens s).
Proof.
  induction s as [|c s IH]; [constructor|]. simpl.
  destruct (decide (c = ","%char)) as [->|Hc].
  - constructor; [apply commaFree_nil|done].
  - destruct (tokens s) as [|tk tks]; constructor.
    + apply commaFree_cons. split; [done|apply commaFree_nil].
    + constructor.
    + apply Forall_cons in IH as [Htk _]. by apply commaFree_cons.
    + by apply Forall_cons in IH as [_ ?].
Qed.

(** X4: nothing is found in empty options, not even the empty option;
    an option that holds a comma is found in no options; the empty
    option is found behind a leading comma but not behind a trailing
    one. *)
Theorem contains_edges (o : tagOptions) (opt tk : string) :
  contains "" opt = Ret false
  ∧ (¬ commaFree opt → contains o opt = Ret false)
  ∧ contains ("," +:+ tk) "" = Ret true
  ∧ (commaFree tk → tk ≠ "" → contains (tk +:+ ",") "" = Ret false).
Proof.
  split; [done|]. split; [|split].
  - intros Hopt. rewrite contains_spec. f_equal. apply bool_decide_eq_false_2.
    intros Hin. apply Hopt. pose proof (tokens_commaFree o) as Hf.
    rewrite Forall_forall in Hf. by apply Hf.
  - rewrite contains_spec. reflexivity.
  - intros Hf Hne. rewrite contains_spec. f_equal. apply bool_decide_eq_false_2.
    assert (tokens (tk +:+ ",") = [tk]) as ->.
    { clear Hne. induction tk as [|c tk IH]; [done|].
      apply commaFree_cons in Hf as [Hc Hf]. rewrite append_cons. simpl.
      rewrite decide_False by done. destruct tk as [|c' tk'].
      - by rewrite append_nil.
      - by rewrite (IH Hf). }
    intros Hin. apply list_elem_of_singleton in Hin. by apply Hne.
Qed.

(** ** The two orderings *)

Lemma byName_Less_name (x y : field) :
  String.ltb (name x) (name y) = true → byName_Less x y = true.
Proof.
  intros Hlt. unfold byName_Less. destruct (decide (name x ≠ name y)) as [|Heq]; [done|].
  apply dec_stable in Heq. rewrite Heq, ltb_irrefl in Hlt. done.
Qed.

(** X5: [byName.Less] is a strict weak ordering, as [sort.Sort] needs:
    irreflexive, asymmetric, and "not less" is transitive.  It orders by
    name first, among equal names by depth, and among equal names and
    depths puts a tagged field before an untagged one. *)
Theorem byName_Less_ordering :
  (∀ x, byName_Less x x = false)
  ∧ (∀ x y, byName_Less x y = true → byName_Less y x = false)
  ∧ (∀ x y z, byName_Less x y = false → byName_Less y z = false → byName_Less x z = false)
  ∧ (∀ x y, String.ltb (name x) (name y) = true → byName_Less x y = true)
  ∧ (∀ x y, name x = name y → length (index x) < length (index y) →
            byName_Less x y = true)
  ∧ (∀ x y, name x = name y → length (index x) = length (index y) →
            tag x = true → tag y = false → byName_Less x y = true).
Proof.
  split; [|split; [|split; [|split; [|split]]]].
  - intros x. destruct (byName_Less x x) eqn:E; [|done].
    pose proof (byName_asym x x E). congruence.
  - apply byName_asym.
  - apply byName_negtrans.
  - apply byName_Less_name.
  - apply byName_Less_shallower.
  - apply byName_Less_tagged.
Qed.

Lemma indexLess_prefix (a r : list nat) (x : nat) : indexLess a (a ++ x :: r) = true.
Proof. induction a as [|y a IH]; [done|]. simpl. by rewrite decide_False by (intros H; by apply H). Qed.

Lemma indexLess_diverge (p a b : list nat) (x y : nat) :
  x < y → indexLess (p ++ x :: a) (p ++ y :: b) = true.
Proof.
  intros Hxy. induction p as [|z p IH]; simpl.
  - rewrite decide_True by lia. by apply Nat.ltb_lt.
  - by rewrite decide_False by (intros H; by apply H).
Qed.

(** X6: [byIndex.Less] is a strict total order on index sequences:
    asymmetric, "not less" transitive, and two sequences neither of
    which is less are the same sequence.  A path sorts before its
    extensions, and two paths that part ways sort by the index at which
    they part. *)
Theorem byIndex_Less_ordering :
  (∀ a b, indexLess a b = true → indexLess b a = false)
  ∧ (∀ a b c, indexLess a b = false → indexLess b c = false → indexLess a c = false)
  ∧ (∀ a b, indexLess a b = false → indexLess b a = false → a = b)
  ∧ (∀ a x r, indexLess a (a ++ x :: r) = true)
  ∧ (∀ p a b x y, x < y → indexLess (p ++ x :: a) (p ++ y :: b) = true).
Proof.
  split; [|split; [|split; [|split]]].
  - apply indexLess_asym.
  - apply indexLess_negtrans.
  - apply indexLess_total.
  - intros a x r. apply indexLess_prefix.
  - intros p a b x y. apply indexLess_diverge.
Qed.

(** ** The collision pass *)

(** X7: the collision pass of [typeFields], which appends its output
    into the array it is still reading ([out := fields[:0]]), returns for
    every input what the same pass returns with an output array of its
    own: no field is overwritten before it is read. *)
Theorem collision_pass_in_place (fields : list field) :
  dedupInPlace fields = dedup fields.
Proof. apply dedupInPlace_dedup. Qed.

(** ** Which entries survive *)

Lemma byName_not_less_depth (x y : field) :
  name x = name y → byName_Less x y = false → length (index y) ≤ length (index x).
Proof.
  intros Hn Hl. destruct (decide (length (index x) < length (index y))) as [Hlt|]; [|lia].
  by rewrite (byName_Less_shallower x y Hn Hlt) in Hl.
Qed.

Lemma named_split (y : string) (l1 l2 : list field) (e : field) :
  name e = y → named y (l1 ++ e :: l2) ≡ₚ e :: named y (l1 ++ l2).
Proof.
  intros He. unfold named. rewrite !filter_app, filter_cons, decide_True by done.
  by rewrite Permutation_middle.
Qed.

Lemma forallb_untagged (l : list field) :
  Forall (λ f, tag f = false) l → forallb (λ f, negb (tag f)) l = true.
Proof.
  intros H. apply forallb_forall. intros x Hx%list_elem_of_In.
  rewrite Forall_forall in H. by rewrite (H x Hx).
Qed.

(** The one entry of a name that the collision pass keeps. *)
Lemma survivor_head (U : universe) (t : tid) (work : list field) (e : field) :
  foundFields U t = Ret work →
  ∃ out, typeFields U t = Ret out
    ∧ (e ∈ out ↔
       ∃ rest, named (name e) (Sort byName_Less work) = e :: rest
               ∧ name e ≠ "" ∧ headSurvives e rest = true).
Proof.
  intros Hw. destruct (typeFields_named U t work (name e) Hw) as (out & Hout & Hn).
  exists out. split; [done|].
  assert (e ∈ out ↔ e ∈ named (name e) out) as ->.
  { unfold named. rewrite list_elem_of_filter. naive_solver. }
  rewrite Hn. destruct (named (name e) (Sort byName_Less work)) as [|a rest] eqn:E.
  - split; [by intros ?%elem_of_nil | by intros (? & ? & _)].
  - destruct (bool_decide (name e ≠ "") && headSurvives a rest) eqn:Hb.
    + apply andb_true_iff in Hb as [Hne%bool_decide_eq_true Hh]. split.
      * intros ->%list_elem_of_singleton. by exists rest.
      * intros (rest' & [= <- <-] & _). apply list_elem_of_here.
    + split; [by intros ?%elem_of_nil|].
      intros (rest' & [= <- <-] & Hne & Hh).
      by rewrite bool_decide_eq_true_2, Hh in Hb.
Qed.

(** X8: which entries [typeFields] returns, read off the entries the
    walk found.  An entry is returned exactly when its name is not
    empty and, taking one occurrence of it out of the found entries,
    either no other found entry has its name, or it is tagged and every
    other found entry of its name is untagged and no shallower.  Depth
    plays no other part: a shallower untagged entry does not win over a
    deeper one of the same name. *)
Theorem survival_rule (U : universe) (t : tid) (work : list field) (e : field) :
  foundFields U t = Ret work →
  ∃ out, typeFields U t = Ret out
    ∧ (e ∈ out ↔
       name e ≠ ""
       ∧ ∃ l1 l2, work = l1 ++ e :: l2
           ∧ (Forall (λ e', name e' ≠ name e) (l1 ++ l2)
              ∨ (tag e = true
                 ∧ Forall (λ e', name e' = name e →
                                 tag e' = false ∧ length (index e) ≤ length (index e'))
                          (l1 ++ l2)))).
Proof.
  intros Hw. destruct (survivor_head U t work e Hw) as (out & Hout & Hiff).
  exists out. split; [done|]. rewrite Hiff. clear Hiff.
  pose proof (sortedBy_filter byName_Less (λ f, name f = name e) (Sort byName_Less work)
                (Sort_sorted _ byName_strictWeak work)) as Hs.
  fold (named (name e) (Sort byName_Less work)) in Hs.
  pose proof (named_Sort_perm (name e) work) as Hp.
  split.
  - intros (rest & E & Hne & Hh). split; [done|].
    assert (e ∈ work) as Hin.
    { assert (e ∈ named (name e) work) as H by (rewrite <- Hp, E; apply list_elem_of_here).
      by apply list_elem_of_filter in H as [_ H]. }
    apply list_elem_of_split in Hin as (l1 & l2 & ->). exists l1, l2. split; [done|].
    rewrite E, named_split in Hp by done. apply Permutation_cons_inv in Hp.
    rewrite E in Hs. apply StronglySorted_cons in Hs as [Hhd _].
    destruct rest as [|b rest].
    + left. apply Permutation_nil_l in Hp. apply Forall_forall. intros x Hx Hn.
      assert (x ∈ named (name e) (l1 ++ l2)) as H by (by apply list_elem_of_filter).
      rewrite <- Hp in H. by apply elem_of_nil in H.
    + right. change (tag e && forallb (λ f, negb (tag f)) (b :: rest) = true) in Hh.
      apply andb_true_iff in Hh as [Ht Hu]. split; [done|].
      apply Forall_forall. intros e' He' Hn.
      assert (e' ∈ b :: rest) as Hr by (rewrite Hp; by apply list_elem_of_filter).
      split.
      * rewrite forallb_forall in Hu. apply list_elem_of_In, Hu in Hr.
        by apply negb_true_iff in Hr.
      * rewrite Forall_forall in Hhd. apply (byName_not_less_depth e' e Hn). by apply Hhd.
  - intros (Hne & l1 & l2 & -> & Hcond).
    rewrite named_split in Hp by done.
    destruct Hcond as [Hnone | [Ht Hall]].
    + assert (named (name e) (l1 ++ l2) = []) as Hnil.
      { by apply named_nil_Forall. }
      rewrite Hnil in Hp. apply Permutation_singleton_r in Hp.
      exists []. by rewrite Hp.
    + destruct (named (name e) (Sort byName_Less (l1 ++ e :: l2))) as [|a rest] eqn:E.
      { by apply Permutation_nil_l in Hp. }
      assert (∀ x, x ∈ named (name e) (l1 ++ l2) →
                   tag x = false ∧ length (index e) ≤ length (index x)) as Hothers.
      { intros x [Hx Hin]%list_elem_of_filter. rewrite Forall_forall in Hall. by apply Hall. }
      assert (a = e) as ->.
      { destruct (decide (a = e)) as [|Hae]; [done|]. exfalso.
        assert (a ∈ e :: named (name e) (l1 ++ l2)) as Ha
          by (rewrite <- Hp; apply list_elem_of_here).
        apply elem_of_cons in Ha as [|Ha]; [done|].
        pose proof Ha as [Hna _]%list_elem_of_filter.
        destruct (Hothers a Ha) as [Hta Hda].
        assert (e ∈ rest) as Her.
        { assert (e ∈ a :: rest) as H by (rewrite Hp; apply list_elem_of_here).
          apply elem_of_cons in H as [|H]; [congruence|done]. }
        apply StronglySorted_cons in Hs as [Hhd _]. rewrite Forall_forall in Hhd.
        specialize (Hhd e Her). simpl in Hhd.
        destruct (decide (length (index e) = length (index a))) as [Hd|Hd].
        - by rewrite byName_Less_tagged in Hhd.
        - rewrite byName_Less_shallower in Hhd; [done|done|lia]. }
      exists rest. split; [done|]. split; [done|].
      apply Permutation_cons_inv in Hp.
      destruct rest as [|b rest]; [done|].
      change (tag e && forallb (λ f, negb (tag f)) (b :: rest) = true).
      rewrite Ht. apply (forallb_untagged (b :: rest)). apply Forall_forall. intros x Hx.
      apply Hothers. by rewrite <- Hp.
Qed.

Lemma survival_rule_witness :
  ∃ out, typeFields Shapes.shallowTagU 2 = Ret out
    ∧ (mkField "Root" "Y" "A" true [0] 0 ∈ out ↔
       name (mkField "Root" "Y" "A" true [0] 0) ≠ ""
       ∧ ∃ l1 l2,
           [mkField "Root" "Y" "A" true [0] 0; mkField "E" "Y" "Y" false [1; 0] 0]
           = l1 ++ mkField "Root" "Y" "A" true [0] 0 :: l2
           ∧ (Forall (λ e', name e' ≠ name (mkField "Root" "Y" "A" true [0] 0)) (l1 ++ l2)
              ∨ (tag (mkField "Root" "Y" "A" true [0] 0) = true
                 ∧ Forall (λ e', name e' = name (mkField "Root" "Y" "A" true [0] 0) →
                                 tag e' = false
                                 ∧ length (index (mkField "Root" "Y" "A" true [0] 0))
                                   ≤ length (index e'))
                          (l1 ++ l2)))).
Proof.
  apply (survival_rule Shapes.shallowTagU 2
           [mkField "Root" "Y" "A" true [0] 0; mkField "E" "Y" "Y" false [1; 0] 0]
           (mkField "Root" "Y" "A" true [0] 0)).
  reflexivity.
Defined.

(** ** Where the returned entries come from *)

(** X9: every entry [typeFields] returns stands for a declared field of
    the root struct or of a struct it embeds, directly or through
    further embedded structs: the field is exported and not tagged "-";
    the entry is bound to the tag's name when the tag has one and to
    the declared name otherwise, and the name is never empty; its type
    is the field's type, one unnamed pointer followed; and an untagged
    embedded field is returned as an entry only when its type is not a
    struct. *)
Theorem resolved_entry_declared (U : universe) (t : tid) (out : list field) (e : field) :
  typeFields U t = Ret out → e ∈ out →
  ∃ q i sf, queued U t q ∧ tFields (typeOf U (typ q)) !! i = Some sf
    ∧ sfPkgPath sf = "" ∧ sfTag sf ≠ "-"
    ∧ index e = index q ++ [i]
    ∧ typ e = followPointer U (sfType sf)
    ∧ tag e = bool_decide ((parseTag (sfTag sf)).1 ≠ "")
    ∧ name e = (if tag e then (parseTag (sfTag sf)).1 else sfName sf)
    ∧ name e ≠ ""
    ∧ (tag e = false → sfAnonymous sf = true → tKind (typeOf U (typ e)) ≠ KStruct).
Proof.
  intros Hout He.
  assert (name e ≠ "") as Hne.
  { destruct (typeFields_unfold U t out Hout) as (work & Hw & _).
    destruct (survivor_head U t work e Hw) as (out' & Hout' & Hiff).
    rewrite Hout in Hout'. injection Hout' as <-.
    by destruct (proj1 Hiff He) as (rest & _ & Hn & _). }
  pose proof (typeFields_found U t out Hout) as Hf. rewrite Forall_forall in Hf.
  destruct (Hf e He) as [q i sf Hq Hsf [Hpkg Htag] Hrec]. simpl in *.
  exists q, i, sf. do 7 (split; [done|]). split; [|split; [done|]].
  - destruct (decide ((parseTag (sfTag sf)).1 = "")) as [E|E].
    + by rewrite bool_decide_eq_false_2 by (intros H; by apply H).
    + by rewrite bool_decide_eq_true_2.
  - intros Hu Ha. unfold recorded in Hrec. rewrite Hu, Ha in Hrec. simpl in Hrec.
    by apply bool_decide_eq_true in Hrec.
Qed.

Lemma resolved_entry_declared_witness :
  let e := mkField "Base" "id" "ID" true [0; 0] 0 in
  ∃ q i sf, queued Examples.U4 3 q ∧ tFields (typeOf Examples.U4 (typ q)) !! i = Some sf
    ∧ sfPkgPath sf = "" ∧ sfTag sf ≠ "-"
    ∧ index e = index q ++ [i]
    ∧ typ e = followPointer Examples.U4 (sfType sf)
    ∧ tag e = bool_decide ((parseTag (sfTag sf)).1 ≠ "")
    ∧ name e = (if tag e then (parseTag (sfTag sf)).1 else sfName sf)
    ∧ name e ≠ ""
    ∧ (tag e = false → sfAnonymous sf = true
       → tKind (typeOf Examples.U4 (typ e)) ≠ KStruct).
Proof.
  apply (resolved_entry_declared Examples.U4 3
           [mkField "Base" "id" "ID" true [0; 0] 0; mkField "Derived" "name" "Name" true [1] 1]);
    [reflexivity | apply list_elem_of_here].
Defined.

Lemma found_index_nonempty (U : universe) (t : tid) (e : field) :
  found U t e → index e ≠ [].
Proof. intros [q i sf _ _ _ _]. simpl. by destruct (index q). Qed.

(** X10: the entries [typeFields] returns name pairwise different
    storage locations: no index path is empty, no two entries share a
    path, and no entry's path runs through another entry's field. *)
Theorem resolved_paths_apart (U : universe) (t : tid) (out : list field) :
  typeFields U t = Ret out →
  Forall (λ e, index e ≠ []) out
  ∧ NoDup (index <$> out)
  ∧ ∀ f g, f ∈ out → g ∈ out → f ≠ g →
           ¬ index f `prefix_of` index g ∧ ¬ index g `prefix_of` index f.
Proof.
  intros Hout. pose proof (typeFields_found U t out Hout) as Hf.
  split; [|split].
  - eapply Forall_impl; [exact Hf|]. intros e. apply found_index_nonempty.
  - apply NoDup_fmap_2_strong.
    + intros f g Hfo Hgo Heq. apply (typeFields_independent U t out f g Hout Hfo Hgo).
      by rewrite Heq.
    + eapply NoDup_fmap_1. by apply (typeFields_NoDup U t).
  - intros f g Hfo Hgo Hne. split; intros Hp; apply Hne.
    + by apply (typeFields_independent U t out f g).
    + symmetry. by apply (typeFields_independent U t out g f).
Qed.

Lemma resolved_paths_apart_witness :
  let out := [mkField "Base" "id" "ID" true [0; 0] 0;
              mkField "Derived" "name" "Name" true [1] 1] in
  Forall (λ e, index e ≠ []) out
  ∧ NoDup (index <$> out)
  ∧ ∀ f g, f ∈ out → g ∈ out → f ≠ g →
           ¬ index f `prefix_of` index g ∧ ¬ index g `prefix_of` index f.
Proof. apply (resolved_paths_apart Examples.U4 3). reflexivity. Defined.

Lemma sortedBy_lookup {A} (less : A → A → bool) (l : list A) :
  sortedBy less l → ∀ i j a b, i < j → l !! i = Some a → l !! j = Some b → less b a = false.
Proof.
  induction 1 as [|x l Hs IH Hx]; intros i j a b Hij Ha Hb; [done|].
  destruct j as [|j]; [lia|]. simpl in Hb. destruct i as [|i]; simpl in Ha.
  - injection Ha as <-. rewrite Forall_forall in Hx. apply Hx.
    by eapply list_elem_of_lookup_2.
  - apply (IH i j); [lia|done|done].
Qed.

(** X11: [typeFields] returns its entries in strictly increasing
    [byIndex] order, that is, in the order in which the fields appear
    when the root struct is written out with its embedded structs
    expanded in place. *)
Theorem resolved_in_index_order (U : universe) (t : tid) (out : list field) :
  typeFields U t = Ret out →
  ∀ i j a b, i < j → out !! i = Some a → out !! j = Some b →
             byIndex_Less a b = true ∧ byIndex_Less b a = false.
Proof.
  intros Hout i j a b Hij Ha Hb.
  destruct (typeFields_unfold U t out Hout) as (work & _ & Eout).
  assert (sortedBy byIndex_Less out) as Hs
    by (rewrite Eout; apply Sort_sorted, byIndex_strictWeak).
  pose proof (sortedBy_lookup byIndex_Less out Hs i j a b Hij Ha Hb) as Hba.
  split; [|done]. destruct (byIndex_Less a b) eqn:Hab; [done|]. exfalso.
  pose proof (indexLess_total _ _ Hab Hba) as Heq.
  assert (a = b) as ->.
  { apply (typeFields_independent U t out a b Hout);
      [by eapply list_elem_of_lookup_2 | by eapply list_elem_of_lookup_2 | by rewrite Heq]. }
  assert (NoDup out) as Hnd by (eapply NoDup_fmap_1; by apply (typeFields_NoDup U t)).
  pose proof (NoDup_lookup out i j b Hnd Ha Hb). lia.
Qed.

Lemma resolved_in_index_order_witness :
  byIndex_Less (mkField "Base" "id" "ID" true [0; 0] 0)
               (mkField "Derived" "name" "Name" true [1] 1) = true
  ∧ byIndex_Less (mkField "Derived" "name" "Name" true [1] 1)
                 (mkField "Base" "id" "ID" true [0; 0] 0) = false.
Proof.
  apply (resolved_in_index_order Examples.U4 3
           [mkField "Base" "id" "ID" true [0; 0] 0; mkField "Derived" "name" "Name" true [1] 1]
           eq_refl 0 1); [lia | reflexivity | reflexivity].
Defined.

(** ** Structs without embedded structs *)

Lemma scanFields_flat (U : universe) (q : field) (sfs : list StructField) : ∀ st i,
  Forall (λ sf, considered sf → recorded U sf = true) sfs →
  scanFields U ∅ q st i sfs
  = mkWalk (w_next st) (w_nextCount st) (w_visited st)
           (w_fields st ++ entriesFrom U q i sfs).
Proof.
  induction sfs as [|sf sfs IH]; intros st i Hall; simpl.
  - rewrite app_nil_r. by destruct st.
  - apply Forall_cons in Hall as [Hsf Hall]. rewrite IH by done. clear IH.
    unfold scanField.
    destruct (decide (sfPkgPath sf ≠ "")) as [Hp|Hp].
    { rewrite (decide_False (P := considered sf)) by (intros [? _]; done). done. }
    apply dec_stable in Hp.
    destruct (decide (sfTag sf = "-")) as [Ht|Ht].
    { rewrite (decide_False (P := considered sf)) by (intros [_ ?]; done). done. }
    rewrite (decide_True (P := considered sf)) by done. specialize (Hsf (conj Hp Ht)).
    unfold recorded in Hsf. rewrite Hsf.
    rewrite decide_False by (unfold countOf; rewrite lookup_empty; simpl; lia).
    simpl. by rewrite <- app_assoc.
Qed.

Lemma foundFields_flat (U : universe) (t : tid) :
  flat U t → foundFields U t = Ret (entriesFrom U (rootEntry t) 0 (tFields (typeOf U t))).
Proof.
  intros [Hk Hall]. rewrite foundFields_first_level by done.
  unfold rootScanned. rewrite scanFields_flat by done. simpl.
  by destruct (length U).
Qed.

Lemma dedup_steps_distinct (l : list field) : ∀ nm out,
  nm ∉ name <$> l → NoDup (name <$> l) →
  (foldl dedupStep (nm, out) l).2 = out ++ l.
Proof.
  induction l as [|f l IH]; intros nm out Hnm Hnd; simpl.
  - by rewrite app_nil_r.
  - rewrite fmap_cons in Hnm, Hnd. apply not_elem_of_cons in Hnm as [Hne Hnm].
    apply NoDup_cons in Hnd as [Hf Hnd].
    unfold dedupStep at 2. simpl. rewrite decide_True by done.
    rewrite IH by done. by rewrite <- app_assoc.
Qed.

Lemma dedup_distinct (l : list field) :
  NoDup (name <$> l) → Forall (λ e, name e ≠ "") l → dedup l = l.
Proof.
  intros Hnd Hne. unfold dedup. rewrite dedup_steps_distinct; [done| |done].
  intros (e & He & Hin)%list_elem_of_fmap. rewrite Forall_forall in Hne. by apply (Hne e).
Qed.

Lemma entriesFrom_index (U : universe) (q : field) (sfs : list StructField) : ∀ i,
  Forall (λ e, ∃ j, i ≤ j ∧ index e = index q ++ [j]) (entriesFrom U q i sfs).
Proof.
  induction sfs as [|sf sfs IH]; intros i; simpl; [constructor|].
  apply Forall_app. split.
  - destruct (decide (considered sf)); [|constructor].
    constructor; [|constructor]. exists i. split; [lia|done].
  - eapply Forall_impl; [apply IH|]. intros e (j & Hj & He). exists j. split; [lia|done].
Qed.

Lemma entriesFrom_sorted (U : universe) (q : field) (sfs : list StructField) : ∀ i,
  sortedBy byIndex_Less (entriesFrom U q i sfs).
Proof.
  induction sfs as [|sf sfs IH]; intros i; simpl; [constructor|].
  destruct (decide (considered sf)); simpl; [|apply IH].
  constructor; [apply IH|].
  eapply Forall_impl; [apply entriesFrom_index|].
  intros e (j & Hj & He). unfold byIndex_Less. simpl. rewrite He.
  destruct (indexLess (index q ++ [j]) (index q ++ [i])) eqn:E; [|done].
  assert (i < j) as Hlt by lia.
  pose proof (indexLess_diverge (index q) [] [] i j Hlt) as Hd.
  apply indexLess_asym in Hd. congruence.
Qed.

(** X12: a struct that embeds no struct resolves to its own fields,
    in declaration order, one entry for each exported field not tagged
    "-", provided the names the fields are bound to are non-empty and
    pairwise distinct; each entry has the one-element path of the
    field's position and the struct's name as context. *)
Theorem flat_struct_resolution (U : universe) (t : tid) :
  flat U t →
  NoDup (name <$> entriesFrom U (rootEntry t) 0 (tFields (typeOf U t))) →
  Forall (λ e, name e ≠ "") (entriesFrom U (rootEntry t) 0 (tFields (typeOf U t))) →
  typeFields U t = Ret (entriesFrom U (rootEntry t) 0 (tFields (typeOf U t))).
Proof.
  intros Hflat Hnd Hne. pose proof (foundFields_flat U t Hflat) as Hw.
  set (own := entriesFrom U (rootEntry t) 0 (tFields (typeOf U t))) in *.
  rewrite (typeFields_fold U t own Hw). f_equal.
  assert (dedup (Sort byName_Less own) = Sort byName_Less own) as ->.
  { apply dedup_distinct.
    - by rewrite Sort_perm.
    - by rewrite Sort_perm. }
  apply (isSortOf_unique byIndex_Less (Sort byName_Less own)).
  - intros x y Hx Hy H1 H2. rewrite Sort_perm in Hx, Hy.
    pose proof (foundFields_found U t own Hw) as Hf. rewrite Forall_forall in Hf.
    apply (found_prefix U t); [by apply Hf|by apply Hf|].
    unfold byIndex_Less in *. by rewrite (indexLess_total _ _ H1 H2).
  - apply Sort_isSortOf, byIndex_strictWeak.
  - split; [apply Sort_perm | apply entriesFrom_sorted].
Qed.

Lemma flat_struct_resolution_witness :
  typeFields Examples.U4 2 = Ret (entriesFrom Examples.U4 (rootEntry 2) 0
                                    (tFields (typeOf Examples.U4 2))).
Proof.
  apply (flat_struct_resolution Examples.U4 2).
  - split; [reflexivity|]. repeat constructor.
  - vm_compute. repeat constructor. intros H. by apply elem_of_nil in H.
  - vm_compute. repeat constructor. discriminate.
Defined.

(** ** What a row scan hands over, and what it stores *)

Lemma fieldMap_steps_None (l : list field) : ∀ (m : gmap string field) c,
  foldl (λ m f, <[name f := f]> m) m l !! c = None ↔ m !! c = None ∧ c ∉ name <$> l.
Proof.
  induction l as [|f l IH]; intros m c; simpl.
  - split; [intros H; split; [done|apply not_elem_of_nil] | by intros [? _]].
  - rewrite IH, not_elem_of_cons. destruct (decide (name f = c)) as [<-|Hne].
    + rewrite lookup_insert_eq. naive_solver.
    + rewrite lookup_insert_ne by done. naive_solver.
Qed.

Lemma fieldMap_lookup_None (fields : list field) (c : string) :
  fieldMap fields !! c = None ↔ c ∉ name <$> fields.
Proof. unfold fieldMap. rewrite fieldMap_steps_None, lookup_empty. naive_solver. Qed.

Lemma columnTargets_length (fm : gmap string field) (elem : option value)
    (cols : list string) : ∀ ts,
  columnTargets fm elem cols = Ret ts → length ts = length cols.
Proof.
  induction cols as [|c cols IH]; intros ts; simpl; [by intros [= <-]|].
  destruct (columnTarget fm elem c) as [tg| |]; simpl; try done.
  destruct (columnTargets fm elem cols) as [ts'| |]; simpl; try done.
  intros [= <-]. simpl. by rewrite (IH ts').
Qed.

(** The targets are built position by position. *)
Lemma columnTargets_lookup (fm : gmap string field) (elem : option value)
    (cols : list string) : ∀ ts i c,
  columnTargets fm elem cols = Ret ts → cols !! i = Some c →
  ∃ tg, ts !! i = Some tg ∧ columnTarget fm elem c = Ret tg.
Proof.
  induction cols as [|c0 cols IH]; intros ts i c; simpl; [done|].
  destruct (columnTarget fm elem c0) as [tg| |] eqn:Etg; simpl; try done.
  destruct (columnTargets fm elem cols) as [ts'| |]; simpl; try done.
  intros [= <-] Hc. destruct i as [|i]; simpl in *.
  - injection Hc as <-. by exists tg.
  - by apply (IH ts').
Qed.

Lemma columnTargets_lookup_inv (fm : gmap string field) (elem : option value)
    (cols : list string) (ts : list target) (j : nat) (tg : target) :
  columnTargets fm elem cols = Ret ts → ts !! j = Some tg →
  ∃ c, cols !! j = Some c ∧ columnTarget fm elem c = Ret tg.
Proof.
  intros Hts Htg.
  assert (j < length cols) as Hj.
  { rewrite <- (columnTargets_length fm elem cols ts Hts). by eapply lookup_lt_Some. }
  apply lookup_lt_is_Some in Hj as [c Hc]. exists c. split; [done|].
  destruct (columnTargets_lookup fm elem cols ts j c Hts Hc) as (tg' & Htg' & Hct).
  congruence.
Qed.

Lemma columnTarget_cases (fields : list field) (e : value) (c : string) (tg : target) :
  columnTarget (fieldMap fields) (Some e) c = Ret tg →
  ((c ∉ name <$> fields) ∧ tg = TRawBytes)
  ∨ (∃ f cur, fieldMap fields !! c = Some f ∧ f ∈ fields ∧ name f = c
              ∧ FieldByIndex e (index f) = Ret cur ∧ tg = TField (index f) cur).
Proof.
  unfold columnTarget. destruct (fieldMap fields !! c) as [f|] eqn:E.
  - destruct (FieldByIndex e (index f)) as [cur| |] eqn:Ef; simpl; try done.
    intros [= <-]. right. exists f, cur.
    pose proof (fieldMap_lookup fields c f E) as [Hin Hn]. done.
  - intros [= <-]. left. split; [by apply fieldMap_lookup_None|done].
Qed.

(** X13: what a returning [scan] on a non-nil destination did, for a
    row source whose column listing succeeds.  [rows.Scan] was handed
    one target per reported column, in column order: for a column
    bound to a field, that field's address; for a column bound to no
    field, a throwaway buffer.  The error returned is the one
    [rows.Scan] returned, the destination holds the stores [rows.Scan]
    made, and the columns announced as missing are the reported
    columns bound to no field, in order. *)
Theorem scan_targets (fields : list field) (e : value) (rows : Rows)
    (cols : list string) (r : scanResult) :
  rows_Columns rows = (cols, None) →
  scan (VPtr (Some e)) fields rows = Ret r →
  ∃ ts, length ts = length cols
    ∧ (∀ i c, cols !! i = Some c →
         ((c ∉ name <$> fields) ∧ ts !! i = Some TRawBytes)
         ∨ (∃ f cur, f ∈ fields ∧ name f = c
                     ∧ FieldByIndex e (index f) = Ret cur
                     ∧ ts !! i = Some (TField (index f) cur)))
    ∧ sr_err r = (rows_Scan rows ts).2
    ∧ sr_dest r = VPtr (Some (applyWrites ts (rows_Scan rows ts).1 e))
    ∧ sr_diag r = filter (λ c, c ∉ name <$> fields) cols.
Proof.
  intros Hcols Hscan. unfold scan in Hscan. simpl in Hscan. rewrite Hcols in Hscan.
  destruct (columnTargets (fieldMap fields) (Some e) cols) as [ts| |] eqn:Ets;
    simpl in Hscan; try done.
  injection Hscan as <-. exists ts. simpl.
  split; [by eapply columnTargets_length|]. split; [|split; [done|split; [done|]]].
  - intros i c Hc.
    destruct (columnTargets_lookup _ _ _ ts i c Ets Hc) as (tg & Htg & Hct).
    apply columnTarget_cases in Hct as [[Hn ->]|(f & cur & _ & Hf & Hn & Hcur & ->)].
    + by left.
    + right. by exists f, cur.
  - unfold unmapped. apply list_filter_iff. intros c. apply fieldMap_lookup_None.
Qed.

Lemma scan_targets_witness :
  ∃ ts, length ts = length ["name"; "age"]
    ∧ (∀ i c, ["name"; "age"] !! i = Some c →
         ((c ∉ name <$> [mkField "Derived" "name" "Name" true [1] 1])
          ∧ ts !! i = Some TRawBytes)
         ∨ (∃ f cur, f ∈ [mkField "Derived" "name" "Name" true [1] 1] ∧ name f = c
                     ∧ FieldByIndex (Examples.derived 1 "al") (index f) = Ret cur
                     ∧ ts !! i = Some (TField (index f) cur)))
    ∧ None = (rows_Scan (Examples.oneRow ["name"; "age"] [VStr "bob"; VInt 30]) ts).2
    ∧ VPtr (Some (Examples.derived 1 "bob"))
      = VPtr (Some (applyWrites ts
                      (rows_Scan (Examples.oneRow ["name"; "age"] [VStr "bob"; VInt 30]) ts).1
                      (Examples.derived 1 "al")))
    ∧ ["age"] = filter (λ c, c ∉ name <$> [mkField "Derived" "name" "Name" true [1] 1])
                       ["name"; "age"].
Proof.
  apply (scan_targets [mkField "Derived" "name" "Name" true [1] 1]
           (Examples.derived 1 "al")
           (Examples.oneRow ["name"; "age"] [VStr "bob"; VInt 30])
           ["name"; "age"]
           (mkScanResult None (VPtr (Some (Examples.derived 1 "bob"))) ["age"]));
    reflexivity.
Defined.

Lemma FieldByIndex_storeAt_same (p : list nat) (e cur new : value) :
  p ≠ [] → FieldByIndex e p = Ret cur → FieldByIndex (storeAt p new e) p = Ret new.
Proof.
  intros Hp Hget. unfold FieldByIndex in *. destruct e as [z|s|fs|o]; try done.
  destruct (storeAt_struct p new fs Hp) as [fs' E]. rewrite E, <- E.
  by apply (fieldByIndexFrom_storeFrom p false (VStruct fs) cur).
Qed.

(** The store made through target [i] is what the field holds
    afterwards, when no other target shares storage with it. *)
Lemma applyWrites_stored (p : list nat) (v : value) (ts : list target) : ∀ ws e i cur0,
  p ≠ [] →
  ts !! i = Some (TField p cur0) → ws !! i = Some (Some v) →
  (∀ j tg, j ≠ i → ts !! j = Some tg → unrelated p tg) →
  (∃ cur, FieldByIndex e p = Ret cur) →
  FieldByIndex (applyWrites ts ws e) p = Ret v.
Proof.
  induction ts as [|tg ts IH]; intros ws e i cur0 Hp Hti Hwi Hothers [cur Hcur]; [done|].
  destruct ws as [|w ws]; [done|].
  destruct i as [|i]; simpl in Hti, Hwi.
  - injection Hti as ->. injection Hwi as ->. simpl.
    rewrite applyWrites_frame.
    + by apply (FieldByIndex_storeAt_same p e cur).
    + apply Forall_forall. intros tg' Htg'.
      apply list_elem_of_lookup_1 in Htg' as [j Hj]. by apply (Hothers (S j)).
  - assert (unrelated p tg) as Hu by (by apply (Hothers 0)).
    assert (∀ j tg', j ≠ i → ts !! j = Some tg' → unrelated p tg') as Hrest.
    { intros j tg' Hj Hl. apply (Hothers (S j)); [lia|done]. }
    destruct tg as [a c0|]; simpl.
    + destruct w as [v0|].
      * apply (IH ws _ i cur0); try done. exists cur.
        destruct Hu as [H1 H2]. by rewrite FieldByIndex_storeAt.
      * apply (IH ws _ i cur0); try done. by exists cur.
    + apply (IH ws _ i cur0); try done. by exists cur.
Qed.

(** X14: a scanned value lands in the field bound to its column.  With
    the field set resolved for a struct type and a row source that
    reports the column [c] once, at position [i], the value [rows.Scan]
    stores through its [i]-th target is what the field bound to [c]
    holds when [scan] returns, whichever other columns were reported
    and stored. *)
Theorem scanned_value_stored (U : universe) (t : tid) (fields : list field) (e : value)
    (rows : Rows) (cols : list string) (r : scanResult)
    (i : nat) (f : field) (v : value) :
  typeFields U t = Ret fields →
  rows_Columns rows = (cols, None) →
  scan (VPtr (Some e)) fields rows = Ret r →
  f ∈ fields → cols !! i = Some (name f) →
  (∀ j, cols !! j = Some (name f) → j = i) →
  ∃ ts e', columnTargets (fieldMap fields) (Some e) cols = Ret ts
    ∧ sr_dest r = VPtr (Some e')
    ∧ ((rows_Scan rows ts).1 !! i = Some (Some v) → FieldByIndex e' (index f) = Ret v).
Proof.
  intros Hfields Hcols Hscan Hf Hi Honce. unfold scan in Hscan. simpl in Hscan.
  rewrite Hcols in Hscan.
  destruct (columnTargets (fieldMap fields) (Some e) cols) as [ts| |] eqn:Ets;
    simpl in Hscan; try done.
  injection Hscan as <-. exists ts. eexists. split; [done|]. split; [done|].
  intros Hv.
  pose proof (typeFields_NoDup U t fields Hfields) as Hnd.
  pose proof (fieldMap_lookup_NoDup fields f Hnd Hf) as Hmap.
  destruct (columnTargets_lookup _ _ _ ts i (name f) Ets Hi) as (tg & Htg & Hct).
  assert (∃ cur, FieldByIndex e (index f) = Ret cur ∧ tg = TField (index f) cur)
    as (cur & Hcur & ->).
  { unfold columnTarget in Hct. rewrite Hmap in Hct.
    destruct (FieldByIndex e (index f)) as [cur| |]; simpl in Hct; try done.
    injection Hct as <-. by exists cur. }
  apply (applyWrites_stored (index f) v ts _ e i cur); try done.
  - pose proof (typeFields_found U t fields Hfields) as Hfound.
    rewrite Forall_forall in Hfound. apply (found_index_nonempty U t), Hfound, Hf.
  - intros j tg Hj Hl.
    destruct (columnTargets_lookup_inv _ _ _ ts j tg Ets Hl) as (c & Hc & Hct').
    apply columnTarget_cases in Hct' as [[_ ->]|(g & cur' & _ & Hg & Hn & _ & ->)]; [done|].
    assert (g ≠ f) as Hgf.
    { intros ->. apply Hj, Honce. by rewrite <- Hn in Hc. }
    simpl. split; intros Hp; apply Hgf.
    + by apply (typeFields_independent U t fields g f).
    + symmetry. by apply (typeFields_independent U t fields f g).
  - by exists cur.
Qed.

Lemma scanned_value_stored_witness :
  ∃ ts e',
    columnTargets
      (fieldMap [mkField "Base" "id" "ID" true [0; 0] 0;
                 mkField "Derived" "name" "Name" true [1] 1])
      (Some (Examples.derived 1 "al")) ["name"; "id"] = Ret ts
    ∧ VPtr (Some (Examples.derived 7 "bob")) = VPtr (Some e')
    ∧ ((rows_Scan Examples.bobRows ts).1 !! 1 = Some (Some (VInt 7)) →
       FieldByIndex e' [0; 0] = Ret (VInt 7)).
Proof.
  apply (scanned_value_stored Examples.U4 3
           [mkField "Base" "id" "ID" true [0; 0] 0; mkField "Derived" "name" "Name" true [1] 1]
           (Examples.derived 1 "al") Examples.bobRows ["name"; "id"]
           (mkScanResult None (VPtr (Some (Examples.derived 7 "bob"))) [])
           1 (mkField "Base" "id" "ID" true [0; 0] 0) (VInt 7)).
  - reflexivity.
  - reflexivity.
  - reflexivity.
  - apply list_elem_of_here.
  - reflexivity.
  - intros [|[|[|j]]] H; simpl in H; try done.
Defined.

(** ** Nil pointers in the destination *)

Lemma columnTargets_nil (fm : gmap string field) (cols : list string) :
  (Forall (λ c, fm !! c = None) cols →
   columnTargets fm None cols = Ret (replicate (length cols) TRawBytes))
  ∧ (¬ Forall (λ c, fm !! c = None) cols → reflectPanics (columnTargets fm None cols)).
Proof.
  split; [apply columnTargets_unmapped|].
  induction cols as [|c cols IH]; intros Hno.
  - exfalso. apply Hno. constructor.
  - simpl. unfold columnTarget at 1. destruct (fm !! c) as [f|] eqn:E; simpl.
    + by eexists.
    + destruct IH as [msg ->]; [|by exists msg].
      intros Hall. apply Hno. by constructor.
Qed.

(** X15: [scan] into a nil pointer.  The destination check lets a nil
    pointer to a struct pass; [scan] then returns, leaving the nil
    pointer as it is, exactly when the column listing fails or no
    reported column is bound to a field, and panics inside reflection
    as soon as one reported column is bound to a field. *)
Theorem scan_nil_destination (fields : list field) (rows : Rows) :
  ((rows_Columns rows).2 ≠ None
   ∨ Forall (λ c, c ∉ name <$> fields) (rows_Columns rows).1 →
   ∃ r, scan (VPtr None) fields rows = Ret r ∧ sr_dest r = VPtr None)
  ∧ ((rows_Columns rows).2 = None →
     ¬ Forall (λ c, c ∉ name <$> fields) (rows_Columns rows).1 →
     reflectPanics (scan (VPtr None) fields rows)).
Proof.
  unfold scan. simpl. destruct (rows_Columns rows) as [cols [err|]]; simpl.
  - split; [|done]. intros _. by eexists.
  - assert (Forall (λ c, c ∉ name <$> fields) cols
            ↔ Forall (λ c, fieldMap fields !! c = None) cols) as Hiff.
    { apply Forall_proper; [|done]. intros c. by rewrite fieldMap_lookup_None. }
    destruct (columnTargets_nil (fieldMap fields) cols) as [Hret Hpanic]. split.
    + intros [H|H]; [done|]. rewrite Hret by (by apply Hiff). simpl. by eexists.
    + intros _ Hno. destruct Hpanic as [msg ->]; [|by exists msg].
      intros H. by apply Hno, Hiff.
Qed.







(** ** Column lists *)

Lemma typeFields_struct (U : universe) (t : tid) (out : list field) :
  typeFields U t = Ret out → tKind (typeOf U t) = KStruct.
Proof.
  unfold typeFields, foundFields.
  by destruct (decide (tKind (typeOf U t) = KStruct)).
Qed.

Lemma typeFields_not_struct (U : universe) (t : tid) :
  tKind (typeOf U t) ≠ KStruct → reflectPanics (typeFields U t).
Proof.
  intros Hk. unfold typeFields, foundFields. rewrite decide_False by done.
  simpl. by eexists.
Qed.

(** X17: [Columns] wants the struct itself where [Scan] wants a
    pointer to it.  [Columns] returns exactly for a value whose dynamic
    type is a struct, with one column expression for each entry of the
    resolved field set, in its order; for any other value, a pointer to
    a struct included, it panics inside reflection.  No value is
    accepted by both [Scan] and [Columns]. *)
Theorem Columns_wants_struct (U : universe) (ty : tid) (v : value) :
  (tKind (typeOf U ty) = KStruct →
   ∃ out, typeFields U ty = Ret out ∧ Columns U (IVal ty v) = Ret (ColName <$> out))
  ∧ (tKind (typeOf U ty) ≠ KStruct → reflectPanics (Columns U (IVal ty v)))
  ∧ (∀ rows, ¬ ((∃ r, Scan U (IVal ty v) rows = Ret r)
                ∧ (∃ cols, Columns U (IVal ty v) = Ret cols))).
Proof.
  split; [|split].
  - intros Hk. destruct (typeFields_total U ty Hk) as [out Hout].
    exists out. split; [done|]. unfold Columns. by rewrite Hout.
  - intros Hk. unfold Columns.
    destruct (typeFields_not_struct U ty Hk) as [msg ->]. by exists msg.
  - intros rows [[r Hr] [cols Hc]]. unfold Scan in Hr. unfold Columns in Hc.
    destruct (notPtrToStruct U ty) eqn:E; [done|].
    apply notPtrToStruct_false in E as [Hptr _].
    destruct (typeFields U ty) as [out| |] eqn:Et; try done.
    apply typeFields_struct in Et. congruence.
Qed.

(** X18: the column expression of a resolved entry.  An entry that
    carries no tag name is selected as ["ctx"."name"] without an alias;
    an entry whose tag name differs from the declared field name is
    selected under the declared name and aliased to the tag name. *)
Theorem resolved_column_names (U : universe) (t : tid) (out : list field) (e : field) :
  typeFields U t = Ret out → e ∈ out →
  (tag e = false → ColName e = quoted (ctx e) +:+ "." +:+ quoted (fname e))
  ∧ (name e ≠ fname e →
     tag e = true
     ∧ ColName e = quoted (ctx e) +:+ "." +:+ quoted (fname e) +:+ " as " +:+ quoted (name e)).
Proof.
  intros Hout He. pose proof (typeFields_found U t out Hout) as Hf.
  rewrite Forall_forall in Hf. destruct (Hf e He) as [q i sf Hq Hsf Hc Hr].
  unfold ColName. simpl.
  destruct (decide ((parseTag (sfTag sf)).1 = "")) as [E|E].
  - rewrite decide_False by (intros H; by apply H). split; [done|]. by intros H.
  - rewrite bool_decide_eq_true_2 by done. split; [done|].
    intros Hne. by rewrite decide_True.
Qed.

Lemma resolved_column_names_witness :
  let e := mkField "Base" "id" "ID" true [0; 0] 0 in
  (tag e = false → ColName e = quoted (ctx e) +:+ "." +:+ quoted (fname e))
  ∧ (name e ≠ fname e →
     tag e = true
     ∧ ColName e = quoted (ctx e) +:+ "." +:+ quoted (fname e) +:+ " as " +:+ quoted (name e)).
Proof.
  apply (resolved_column_names Examples.U4 3
           [mkField "Base" "id" "ID" true [0; 0] 0; mkField "Derived" "name" "Name" true [1] 1]);
    [reflexivity | apply list_elem_of_here].
Defined.

(** ** Sessions and the uncached calls *)

Lemma Session_fields_result (U : universe) (s : Session) (t : tid) :
  cacheSound U s → (Session_fields U s t).1 = typeFields U t.
Proof.
  intros Hs. unfold Session_fields. destruct (finfos s !! t) as [fs|] eqn:E.
  - simpl. symmetry. by apply Hs.
  - by destruct (typeFields U t).
Qed.

(** X19: a session is transparent.  On a session obtained from
    [NewSession] by any calls, [Session.Scan] and [Session.Columns]
    return, or panic with, exactly what the package-level [Scan] and
    [Columns] do on the same arguments. *)
Theorem session_transparent (U : universe) (s : Session) (d : iface) (rows : Rows) :
  reachable U s →
  (Session_Scan U s d rows).1 = Scan U d rows
  ∧ (Session_Columns U s d).1 = Columns U d.
Proof.
  intros Hs%reachable_sound. split.
  - unfold Session_Scan, Scan. destruct d as [|ty v]; [done|].
    destruct (notPtrToStruct U ty); [done|]. simpl. by rewrite Session_fields_result.
  - unfold Session_Columns, Columns. destruct d as [|ty v]; [done|].
    simpl. by rewrite Session_fields_result.
Qed.

Lemma session_transparent_witness :
  (Session_Scan Examples.U4 NewSession (Examples.derivedPtr 1 "al") Examples.bobRows).1
  = Scan Examples.U4 (Examples.derivedPtr 1 "al") Examples.bobRows
  ∧ (Session_Columns Examples.U4 NewSession (Examples.derivedPtr 1 "al")).1
    = Columns Examples.U4 (Examples.derivedPtr 1 "al").
Proof. apply (session_transparent Examples.U4 NewSession). by exists []. Defined.

Lemma Session_fields_keeps (U : universe) (s : Session) (t k : tid) (fs : list field) :
  finfos s !! k = Some fs → finfos (Session_fields U s t).2 !! k = Some fs.
Proof.
  intros Hk. unfold Session_fields. destruct (finfos s !! t) as [fs'|] eqn:E; [done|].
  destruct (typeFields U t) as [fs'| |]; simpl; try done.
  rewrite lookup_insert_ne; [done|]. intros ->. congruence.
Qed.

Lemma afterCall_keeps (U : universe) (s : Session) (c : sessionCall) (k : tid)
    (fs : list field) :
  finfos s !! k = Some fs → finfos (afterCall U s c) !! k = Some fs.
Proof.
  intros Hk. destruct c as [[|ty v] rows|[|ty v]]; simpl; try done.
  - destruct (notPtrToStruct U ty); [done|]. simpl. by apply Session_fields_keeps.
  - by apply Session_fields_keeps.
Qed.

(** X20: a session never forgets and never replaces.  A field set
    stored in the cache of a session stays there, unchanged, through
    every later [Session.Scan] and [Session.Columns], whatever their
    arguments and whether they return or panic. *)
Theorem cache_entries_persist (U : universe) (s : Session) (calls : list sessionCall)
    (k : tid) (fs : list field) :
  finfos s !! k = Some fs →
  finfos (foldl (afterCall U) s calls) !! k = Some fs.
Proof.
  revert s. induction calls as [|c calls IH]; intros s Hk; [done|].
  simpl. by apply IH, afterCall_keeps.
Qed.

Lemma cache_entries_persist_witness :
  finfos (foldl (afterCall Examples.U4)
            (mkSession {[ 3 := [mkField "Derived" "name" "Name" true [1] 1] ]} 1)
            [CallColumns (IVal 2 (VStruct [VInt 0])); CallScan INil Examples.bobRows])
    !! 3
  = Some [mkField "Derived" "name" "Name" true [1] 1].
Proof.
  apply (cache_entries_persist Examples.U4
           (mkSession {[ 3 := [mkField "Derived" "name" "Name" true [1] 1] ]} 1)).
  reflexivity.
Defined.

(** X21: what the cache of a session holds.  In a session obtained
    from [NewSession] by any calls, every key of the cache is a struct
    type, and the field set stored under it is the one [typeFields]
    returns for that type, with pairwise distinct names. *)
Theorem session_cache_invariant (U : universe) (s : Session) (k : tid) (fs : list field) :
  reachable U s → finfos s !! k = Some fs →
  tKind (typeOf U k) = KStruct ∧ typeFields U k = Ret fs ∧ NoDup (name <$> fs).
Proof.
  intros Hs%reachable_sound Hk. pose proof (Hs k fs Hk) as Ht.
  split; [by eapply typeFields_struct|]. split; [done|]. by eapply typeFields_NoDup.
Qed.

Lemma session_cache_invariant_witness :
  let fs := [mkField "Base" "id" "ID" true [0; 0] 0;
             mkField "Derived" "name" "Name" true [1] 1] in
  tKind (typeOf Examples.U4 3) = KStruct
  ∧ typeFields Examples.U4 3 = Ret fs ∧ NoDup (name <$> fs).
Proof.
  apply (session_cache_invariant Examples.U4
           (foldl (afterCall Examples.U4) NewSession
                  [CallScan (Examples.derivedPtr 1 "al") Examples.bobRows])).
  - by exists [CallScan (Examples.derivedPtr 1 "al") Examples.bobRows].
  - reflexivity.
Defined.

(** ** Each struct type is scanned once *)

Lemma scanField_fields (U : universe) count q st i sf :
  w_fields (scanField U count q st i sf) = w_fields st ++ recordedEntries U count q i sf.
Proof.
  unfold recordedEntries. destruct (decide (considered sf)) as [[Hp Ht]|Hn].
  - unfold scanField.
    rewrite (decide_False (P := sfPkgPath sf ≠ "")) by (intros H; by apply H).
    rewrite (decide_False (P := sfTag sf = "-")) by done.
    fold (recorded U sf). destruct (recorded U sf); simpl.
    + destruct (decide (1 < countOf count (typ q))); simpl; [|done].
      by rewrite <- app_assoc.
    + by rewrite app_nil_r.
  - rewrite app_nil_r.
    by destruct (scanField_cases U count q st i sf) as [[_ ->]|[(Hc & _)|(Hc & _)]].
Qed.

Lemma recordedEntries_leaf (U : universe) count q i sf e :
  e ∈ recordedEntries U count q i sf → e = leafEntry U q i sf.
Proof.
  unfold recordedEntries. destruct (decide (considered sf)); [|by intros ?%elem_of_nil].
  destruct (recorded U sf); [|by intros ?%elem_of_nil].
  destruct (decide (1 < countOf count (typ q))).
  - intros [->|[->|?%elem_of_nil]%elem_of_cons]%elem_of_cons; done.
  - by intros ->%list_elem_of_singleton.
Qed.

Lemma owns_unique (U : universe) (t : tid) (q q' e : field) :
  queued U t q → queued U t q' → owns q e → owns q' e → q = q'.
Proof.
  intros Hq Hq' [i Hi] [i' Hi']. rewrite Hi in Hi'.
  apply app_inj_tail in Hi' as [Hidx _]. by apply (queued_index_inj U t).
Qed.

Lemma scanField_scanning (U : universe) (t : tid) count q0 st i sf :
  queued U t q0 → scanning U t q0 st → scanning U t q0 (scanField U count q0 st i sf).
Proof.
  intros Hq0 ([H1 H2] & Hv & H3).
  assert (∀ e, e ∈ w_fields (scanField U count q0 st i sf) →
               e ∈ w_fields st ∨ owns q0 e) as Hsplit.
  { intros e. rewrite scanField_fields. intros [He|He]%elem_of_app; [by left|right].
    apply recordedEntries_leaf in He as ->. by exists i. }
  assert (∀ e q, e ∈ w_fields (scanField U count q0 st i sf) →
                 queued U t q → owns q e → typ q = typ q0 → q = q0) as H3'.
  { intros e q He Hq Ho Ht. destruct (Hsplit e He) as [Hold|Hnew].
    - by apply (H3 e).
    - by apply (owns_unique U t q q0 e). }
  split; [split|split].
  - intros e He. rewrite scanField_visited. destruct (Hsplit e He) as [Hold|Hnew].
    + by apply H1.
    + by exists q0.
  - intros e e' q q' He He' Hq Hq' Ho Ho' Ht.
    destruct (Hsplit e He) as [Hold|Hnew], (Hsplit e' He') as [Hold'|Hnew'].
    + by apply (H2 e e').
    + pose proof (owns_unique U t q' q0 e' Hq' Hq0 Ho' Hnew') as ->.
      by apply (H3 e).
    + pose proof (owns_unique U t q q0 e Hq Hq0 Ho Hnew) as ->.
      symmetry. by apply (H3 e').
    + pose proof (owns_unique U t q q0 e Hq Hq0 Ho Hnew) as ->.
      pose proof (owns_unique U t q' q0 e' Hq' Hq0 Ho' Hnew') as ->. done.
  - by rewrite scanField_visited.
  - done.
Qed.

Lemma scanFields_scanning (U : universe) (t : tid) count q0 sfs : ∀ st i,
  queued U t q0 → scanning U t q0 st → scanning U t q0 (scanFields U count q0 st i sfs).
Proof.
  induction sfs as [|sf sfs IH]; intros st i Hq0 Hs; simpl; [done|].
  by apply IH, scanField_scanning.
Qed.

Lemma visit_scannedOnce (U : universe) (t : tid) count st q0 :
  queued U t q0 → scannedOnce U t st → scannedOnce U t (visit U count st q0).
Proof.
  intros Hq0 [H1 H2]. unfold visit. destruct (decide (typ q0 ∈ w_visited st)) as [|Hnew].
  { by split. }
  apply (scanFields_scanning U t count q0); [done|]. split; [split|split]; simpl.
  - intros e He. destruct (H1 e He) as (q & Hq & Ho & Hv). exists q. set_solver.
  - done.
  - set_solver.
  - intros e q He Hq Ho Ht. exfalso. destruct (H1 e He) as (q1 & Hq1 & Ho1 & Hv1).
    pose proof (owns_unique U t q q1 e Hq Hq1 Ho Ho1) as ->. apply Hnew. by rewrite <- Ht.
Qed.

Lemma visits_scannedOnce (U : universe) (t : tid) count cur : ∀ st,
  Forall (queued U t) cur → scannedOnce U t st →
  scannedOnce U t (foldl (visit U count) st cur).
Proof.
  induction cur as [|q cur IH]; intros st Hcur Hs; simpl; [done|].
  apply Forall_cons in Hcur as [Hq Hcur]. by apply IH, visit_scannedOnce.
Qed.

Lemma walk_scannedOnce (U : universe) (t : tid) fuel : ∀ st fs,
  walk U fuel st = Ret fs →
  Forall (queued U t) (w_next st) → Forall (found U t) (w_fields st) →
  scannedOnce U t st →
  ∀ e e' q q', e ∈ fs → e' ∈ fs → queued U t q → queued U t q' →
               owns q e → owns q' e' → typ q = typ q' → q = q'.
Proof.
  induction fuel as [|fuel IH]; intros st fs; simpl.
  - destruct (w_next st); [|done]. intros [= <-] _ _ [_ H2]. exact H2.
  - destruct (w_next st) as [|q0 next0] eqn:En; [intros [= <-] _ _ [_ H2]; exact H2|].
    rewrite <- En. intros Hw Hnext Hfields Hs.
    destruct (visits_inv U t (w_nextCount st) (w_next st)
                (mkWalk [] ∅ (w_visited st) (w_fields st))) as [Hn Hf]; try done.
    apply (IH _ _ Hw Hn Hf). unfold level. by apply visits_scannedOnce.
Qed.

Lemma foundFields_scannedOnce (U : universe) (t : tid) (work : list field) :
  foundFields U t = Ret work →
  ∀ e e' q q', e ∈ work → e' ∈ work → queued U t q → queued U t q' →
               owns q e → owns q' e' → typ q = typ q' → q = q'.
Proof.
  unfold foundFields. case_decide; [|done]. intros Hw.
  apply (walk_scannedOnce U t _ _ _ Hw); simpl.
  - repeat constructor.
  - constructor.
  - split; [by intros e ?%elem_of_nil | by intros e e' q q' ?%elem_of_nil].
Qed.

Lemma typeFields_subseteq (U : universe) (t : tid) (work out : list field) (e : field) :
  foundFields U t = Ret work → typeFields U t = Ret out → e ∈ out → e ∈ work.
Proof.
  intros Hw Hout He. destruct (typeFields_unfold U t out Hout) as (work' & Hw' & ->).
  rewrite Hw in Hw'. injection Hw' as <-.
  rewrite Sort_perm in He. apply dedup_subseteq in He. by rewrite Sort_perm in He.
Qed.



(** ** A struct embedded along two paths of the same depth *)

Lemma scanField_prefix (U : universe) count q st i sf :
  w_fields st `prefix_of` w_fields (scanField U count q st i sf).
Proof. rewrite scanField_fields. by apply prefix_app_r. Qed.

Lemma scanFields_prefix (U : universe) count q sfs : ∀ st i,
  w_fields st `prefix_of` w_fields (scanFields U count q st i sfs).
Proof.
  induction sfs as [|sf sfs IH]; intros st i; simpl; [done|].
  etrans; [apply (scanField_prefix U count q st i sf)|apply IH].
Qed.

Lemma visit_prefix (U : universe) count st q :
  w_fields st `prefix_of` w_fields (visit U count st q).
Proof.
  unfold visit. case_decide; [done|].
  apply (scanFields_prefix U count q _ (mkWalk _ _ _ _)).
Qed.

Lemma visits_prefix (U : universe) count cur : ∀ st,
  w_fields st `prefix_of` w_fields (foldl (visit U count) st cur).
Proof.
  induction cur as [|q cur IH]; intros st; simpl; [done|].
  etrans; [apply (visit_prefix U count st q)|apply IH].
Qed.

Lemma walk_prefix (U : universe) fuel : ∀ st fs,
  walk U fuel st = Ret fs → w_fields st `prefix_of` fs.
Proof.
  induction fuel as [|fuel IH]; intros st fs; simpl.
  - destruct (w_next st); [|done]. by intros [= <-].
  - destruct (w_next st) eqn:En; [by intros [= <-]|]. intros Hw.
    etrans; [|by apply IH]. unfold level.
    apply (visits_prefix U _ _ (mkWalk _ _ _ _)).
Qed.

Lemma twice_prefix (e : field) (l l' : list field) :
  twice e l → l `prefix_of` l' → twice e l'.
Proof.
  intros (l1 & l2 & ->) [k ->]. exists l1, (l2 ++ k).
  by rewrite <- app_assoc.
Qed.

Lemma twice_elem (e : field) (l : list field) : twice e l → e ∈ l.
Proof. intros (l1 & l2 & ->). apply elem_of_app. right. apply list_elem_of_here. Qed.

(** An entry found twice is never returned. *)
Lemma twice_dropped (U : universe) (t : tid) (work out : list field) (e : field) :
  foundFields U t = Ret work → typeFields U t = Ret out → twice e work → e ∉ out.
Proof.
  intros Hw Hout (l1 & l2 & ->) He.
  destruct (survivor_head U t _ e Hw) as (out' & Hout' & Hiff).
  rewrite Hout in Hout'. injection Hout' as <-.
  apply Hiff in He as (rest & E & _ & Hh).
  pose proof (named_Sort_perm (name e) (l1 ++ e :: e :: l2)) as Hp.
  rewrite E in Hp. unfold named in Hp.
  rewrite filter_app, !filter_cons_True in Hp by done.
  rewrite <- Permutation_middle in Hp. apply Permutation_cons_inv in Hp.
  assert (e ∈ rest) as Hin.
  { rewrite Hp. apply elem_of_app. right. apply list_elem_of_here. }
  destruct rest as [|b rest]; [by apply elem_of_nil in Hin|].
  change (tag e && forallb (λ f, negb (tag f)) (b :: rest) = true) in Hh.
  apply andb_true_iff in Hh as [Ht Hu]. rewrite forallb_forall in Hu.
  apply list_elem_of_In, Hu in Hin. by rewrite Ht in Hin.
Qed.

Lemma recorded_false_embeds (U : universe) (sf : StructField) :
  recorded U sf = false →
  sfAnonymous sf = true ∧ (parseTag (sfTag sf)).1 = ""
  ∧ tKind (typeOf U (followPointer U (sfType sf))) = KStruct.
Proof.
  unfold recorded. rewrite !orb_false_iff, !bool_decide_eq_false, negb_false_iff.
  intros [[Hn Ha] Hk]. repeat split; [done|by apply dec_stable..].
Qed.

Lemma embedsAt_field (U : universe) (T : tid) (j : nat) (A : tid) :
  embedsAt U T j A →
  ∃ sf, tFields (typeOf U T) !! j = Some sf ∧ considered sf ∧ recorded U sf = false
        ∧ followPointer U (sfType sf) = A.
Proof.
  intros (sf & Hsf & Hc & Ha & Hn & Hf & Hk). exists sf.
  split; [done|]. split; [done|]. split; [|done].
  unfold recorded. rewrite Ha, Hn, Hf. simpl.
  by rewrite bool_decide_eq_false_2 by (intros H; by apply H).
Qed.

(** *** The counters of the next level *)

Lemma scanField_count_mono (U : universe) count q st i sf (A : tid) :
  countOf (w_nextCount st) A ≤ countOf (w_nextCount (scanField U count q st i sf)) A.
Proof.
  destruct (scanField_cases U count q st i sf)
    as [[_ ->]|[(_ & _ & _ & -> & _)|(_ & _ & _ & -> & _)]]; [done|done|].
  destruct (decide (followPointer U (sfType sf) = A)) as [->|Hne].
  - rewrite countOf_insert_eq. lia.
  - by rewrite countOf_insert_ne.
Qed.

Lemma scanField_count_incr (U : universe) count q st i sf :
  considered sf → recorded U sf = false →
  countOf (w_nextCount (scanField U count q st i sf)) (followPointer U (sfType sf))
  = S (countOf (w_nextCount st) (followPointer U (sfType sf))).
Proof.
  intros Hc Hr.
  destruct (scanField_cases U count q st i sf)
    as [[Hn _]|[(_ & Hr' & _)|(_ & _ & _ & -> & _)]]; [done|congruence|].
  by rewrite countOf_insert_eq.
Qed.

Lemma scanFields_count_mono (U : universe) count q sfs (A : tid) : ∀ st i,
  countOf (w_nextCount st) A ≤ countOf (w_nextCount (scanFields U count q st i sfs)) A.
Proof.
  induction sfs as [|sf sfs IH]; intros st i; simpl; [done|].
  etrans; [apply (scanField_count_mono U count q st i sf A)|apply IH].
Qed.

Lemma scanFields_count_incr (U : universe) count q sfs : ∀ st i j sf,
  sfs !! j = Some sf → considered sf → recorded U sf = false →
  S (countOf (w_nextCount st) (followPointer U (sfType sf)))
  ≤ countOf (w_nextCount (scanFields U count q st i sfs)) (followPointer U (sfType sf)).
Proof.
  induction sfs as [|sf0 sfs IH]; intros st i j sf Hj Hc Hr; [done|].
  simpl. destruct j as [|j]; simpl in Hj.
  - injection Hj as ->. rewrite <- (scanField_count_incr U count q st i sf Hc Hr).
    apply scanFields_count_mono.
  - etrans; [|by apply (IH _ (S i) j sf)].
    apply le_n_S, scanField_count_mono.
Qed.

Lemma visit_count_mono (U : universe) count st q (A : tid) :
  countOf (w_nextCount st) A ≤ countOf (w_nextCount (visit U count st q)) A.
Proof.
  unfold visit. case_decide; [done|].
  apply (scanFields_count_mono U count q _ A (mkWalk _ _ _ _)).
Qed.

Lemma visit_count_incr (U : universe) count st q (j : nat) (A : tid) :
  typ q ∉ w_visited st → embedsAt U (typ q) j A →
  S (countOf (w_nextCount st) A) ≤ countOf (w_nextCount (visit U count st q)) A.
Proof.
  intros Hv (sf & Hsf & Hc & Hr & <-)%embedsAt_field.
  unfold visit. rewrite decide_False by done.
  by apply (scanFields_count_incr U count q _ (mkWalk _ _ _ _) 0 j sf).
Qed.

Lemma visits_count_mono (U : universe) count cur (A : tid) : ∀ st,
  countOf (w_nextCount st) A ≤ countOf (w_nextCount (foldl (visit U count) st cur)) A.
Proof.
  induction cur as [|q cur IH]; intros st; simpl; [done|].
  etrans; [apply (visit_count_mono U count st q A)|apply IH].
Qed.

Lemma visits_count_incr (U : universe) count cur (A : tid) : ∀ st q j,
  NoDup (typ <$> cur) → q ∈ cur → typ q ∉ w_visited st → embedsAt U (typ q) j A →
  S (countOf (w_nextCount st) A)
  ≤ countOf (w_nextCount (foldl (visit U count) st cur)) A.
Proof.
  induction cur as [|q0 cur IH]; intros st q j Hnd Hq Hv He; simpl.
  { by apply elem_of_nil in Hq. }
  rewrite fmap_cons in Hnd. apply NoDup_cons in Hnd as [Hq0 Hnd].
  apply elem_of_cons in Hq as [->|Hq].
  - etrans; [by apply (visit_count_incr U count st q0 j A)|apply visits_count_mono].
  - etrans; [|apply (IH _ q j); try done].
    + apply le_n_S, visit_count_mono.
    + rewrite visit_visited.
      intros [E%elem_of_singleton|E]%elem_of_union; [|done].
      apply Hq0. rewrite <- E. apply list_elem_of_fmap. by exists q.
Qed.

(** Two queued structs that both embed [A] count [A] twice. *)
Lemma visits_count_two (U : universe) count cur (A : tid) (st : walkState)
    (q1 q2 : field) (j1 j2 : nat) :
  NoDup (typ <$> cur) → q1 ∈ cur → q2 ∈ cur → typ q1 ≠ typ q2 →
  typ q1 ∉ w_visited st → typ q2 ∉ w_visited st →
  embedsAt U (typ q1) j1 A → embedsAt U (typ q2) j2 A →
  2 ≤ countOf (w_nextCount (foldl (visit U count) st cur)) A.
Proof.
  intros Hnd H1 H2 Hne Hvq1 Hvq2 He1 He2.
  apply list_elem_of_split in H1 as (l1 & l2 & ->).
  rewrite fmap_app, fmap_cons in Hnd. apply NoDup_app in Hnd as (Hnd1 & Hdisj & Hnd2).
  apply NoDup_cons in Hnd2 as [Hq1 Hnd2].
  rewrite foldl_app. simpl.
  set (sta := foldl (visit U count) st l1).
  assert (typ q1 ∉ w_visited sta) as Hv1.
  { unfold sta. rewrite visits_visited.
    intros [E%elem_of_list_to_set|E]%elem_of_union.
    - apply (Hdisj (typ q1) E). apply list_elem_of_here.
    - done. }
  pose proof (visit_count_incr U count sta q1 j1 A Hv1 He1) as Hincr.
  apply elem_of_app in H2 as [H2|H2].
  - assert (1 ≤ countOf (w_nextCount sta) A) as H.
    { etrans; [|apply (visits_count_incr U count l1 A st q2 j2); try done].
      lia. }
    etrans; [|apply visits_count_mono]. lia.
  - apply elem_of_cons in H2 as [->|H2]; [done|].
    etrans; [|apply (visits_count_incr U count l2 A _ q2 j2); try done].
    + lia.
    + rewrite visit_visited. unfold sta. rewrite visits_visited.
      intros [E%elem_of_singleton|[E%elem_of_list_to_set|E]%elem_of_union]%elem_of_union.
      * done.
      * apply (Hdisj (typ q2) E). apply list_elem_of_further, list_elem_of_fmap.
        by exists q2.
      * done.
Qed.

Lemma visit_queueCounted (U : universe) count st q :
  queueCounted st → queueCounted (visit U count st q).
Proof.
  intros H. unfold visit. case_decide; [done|].
  by apply (scanFields_queueCounted U count q _ (mkWalk _ _ _ _)).
Qed.

Lemma visits_queueCounted (U : universe) count cur : ∀ st,
  queueCounted st → queueCounted (foldl (visit U count) st cur).
Proof.
  induction cur as [|q cur IH]; intros st H; simpl; [done|].
  by apply IH, visit_queueCounted.
Qed.

Lemma queueCounted_empty (v : gset tid) (fs : list field) : queueCounted (mkWalk [] ∅ v fs).
Proof.
  split; [constructor|]. intros ft. unfold countOf. simpl.
  rewrite lookup_empty. simpl. split; [lia|]. intros H. by apply elem_of_nil in H.
Qed.

(** What the scan of a struct queues are the structs it embeds. *)
Lemma scanFields_next_origin (U : universe) count q sfs : ∀ st i x,
  x ∈ w_next (scanFields U count q st i sfs) →
  x ∈ w_next st
  ∨ ∃ j sf, sfs !! j = Some sf ∧ considered sf ∧ recorded U sf = false
            ∧ typ x = followPointer U (sfType sf).
Proof.
  induction sfs as [|sf sfs IH]; intros st i x Hx; simpl in Hx; [by left|].
  apply IH in Hx as [Hx|(j & sf' & Hj & Hc & Hr & Ht)].
  - destruct (scanField_cases U count q st i sf)
      as [[_ E]|[(_ & _ & E & _)|(Hc & Hr & _ & _ & E)]]; rewrite E in Hx; try by left.
    case_decide; [|by left].
    apply elem_of_app in Hx as [Hx|Hx%list_elem_of_singleton]; [by left|].
    right. subst x. by exists 0, sf.
  - right. by exists (S j), sf'.
Qed.

(** *** Entries recorded twice *)

Lemma scanFields_records_twice (U : universe) count q sfs : ∀ st i j sf,
  1 < countOf count (typ q) →
  sfs !! j = Some sf → considered sf → recorded U sf = true →
  twice (leafEntry U q (i + j) sf) (w_fields (scanFields U count q st i sfs)).
Proof.
  induction sfs as [|sf0 sfs IH]; intros st i j sf Hcnt Hj Hc Hr; [done|].
  simpl. destruct j as [|j]; simpl in Hj.
  - injection Hj as ->. rewrite Nat.add_0_r.
    apply (twice_prefix _ (w_fields (scanField U count q st i sf)));
      [|apply scanFields_prefix].
    rewrite scanField_fields. unfold recordedEntries.
    rewrite (decide_True (P := considered sf)) by done. rewrite Hr.
    rewrite decide_True by done. by exists (w_fields st), [].
  - rewrite Nat.add_succ_r. by apply (IH _ (S i)).
Qed.

Lemma visits_records_twice (U : universe) count cur : ∀ st q j sf,
  NoDup (typ <$> cur) → q ∈ cur → typ q ∉ w_visited st →
  1 < countOf count (typ q) →
  tFields (typeOf U (typ q)) !! j = Some sf → considered sf → recorded U sf = true →
  twice (leafEntry U q j sf) (w_fields (foldl (visit U count) st cur)).
Proof.
  induction cur as [|q0 cur IH]; intros st q j sf Hnd Hq Hv Hcnt Hj Hc Hr; simpl.
  { by apply elem_of_nil in Hq. }
  rewrite fmap_cons in Hnd. apply NoDup_cons in Hnd as [Hq0 Hnd].
  apply elem_of_cons in Hq as [->|Hq].
  - apply (twice_prefix _ (w_fields (visit U count st q0))); [|apply visits_prefix].
    unfold visit. rewrite decide_False by done.
    by apply (scanFields_records_twice U count q0 _ (mkWalk _ _ _ _) 0 j sf).
  - apply IH; try done. rewrite visit_visited.
    intros [E%elem_of_singleton|E]%elem_of_union; [|done].
    apply Hq0. rewrite <- E. apply list_elem_of_fmap. by exists q.
Qed.

(** X23: the fields of a struct embedded twice at the same depth are
    all dropped.  When the root embeds two different structs [B] and
    [C], each of which embeds the struct [A], and the root does not
    embed [A] itself, no entry [typeFields] returns stands for a field
    declared by [A], tagged or untagged, whether or not another field
    shares its name. *)
Theorem diamond_fields_dropped (U : universe) (t : tid) (out : list field)
    (iB iC jB jC : nat) (B C A : tid) (e : field) :
  typeFields U t = Ret out →
  embedsAt U t iB B → embedsAt U t iC C → B ≠ C → B ≠ t → C ≠ t →
  embedsAt U B jB A → embedsAt U C jC A →
  A ≠ t → (∀ i, ¬ embedsAt U t i A) →
  e ∈ out → ¬ declaredBy U t A e.
Proof.
  intros Hout HB HC HBC HBt HCt HBA HCA HAt HnoA He (q & Hq & Htq & Ho).
  destruct (typeFields_unfold U t out Hout) as (work & Hw & _).
  pose proof (typeFields_subseteq U t work out e Hw Hout He) as Hework.
  pose proof (foundFields_scannedOnce U t work Hw) as Honce.
  pose proof Hw as Hwalk.
  rewrite (foundFields_first_level U t (typeFields_struct U t out Hout)) in Hwalk.
  (* the first level: the root scanned *)
  set (st0 := mkWalk [] ∅ ({[t]} ∪ ∅) []).
  set (st1 := rootScanned U t) in *.
  assert (queueCounted st1) as Hqc1
    by (apply scanFields_queueCounted, queueCounted_empty).
  assert (Forall (queued U t) (w_next st1) ∧ Forall (found U t) (w_fields st1))
    as [Hq1 Hf1].
  { apply (scanFields_inv U t ∅ (rootEntry t)); try done; constructor. }
  assert (w_visited st1 = {[t]} ∪ ∅) as Hv1
    by (unfold st1, rootScanned; by rewrite scanFields_visited).
  assert (∀ T i, embedsAt U t i T → ∃ qT, qT ∈ w_next st1 ∧ typ qT = T) as Hqueued.
  { intros T i (sf & Hsf & Hc & Hr & <-)%embedsAt_field.
    pose proof (scanFields_queues U ∅ (rootEntry t) _ st0 0 i sf
                  (queueCounted_empty _ _) Hsf Hc Hr) as Hin.
    apply list_elem_of_fmap in Hin as (x & Hx & Hin). by exists x. }
  destruct (Hqueued B iB HB) as (qB & HqB & HtB).
  destruct (Hqueued C iC HC) as (qC & HqC & HtC).
  assert (A ∉ typ <$> w_next st1) as HA1.
  { intros (x & Hx & Hin)%list_elem_of_fmap.
    apply scanFields_next_origin in Hin as [Hin|(j & sf & Hj & Hc & Hr & Ht)].
    { by apply elem_of_nil in Hin. }
    apply (HnoA j). exists sf.
    destruct (recorded_false_embeds U sf Hr) as (Ha & Hn & Hk).
    assert (followPointer U (sfType sf) = A) as Hf by congruence.
    rewrite Hf in Hk. done. }
  (* the second level: [B] and [C] scanned *)
  destruct (length U) as [|n]; simpl in Hwalk.
  { destruct (w_next st1); [by apply elem_of_nil in HqB|done]. }
  destruct (w_next st1) as [|x1 next1] eqn:En1; [by apply elem_of_nil in HqB|].
  rewrite <- En1 in *. clear x1 next1 En1.
  set (st2 := level U st1) in *.
  assert (queueCounted st2) as Hqc2 by (apply visits_queueCounted, queueCounted_empty).
  assert (Forall (queued U t) (w_next st2) ∧ Forall (found U t) (w_fields st2))
    as [Hq2 Hf2] by (by apply visits_inv).
  assert (2 ≤ countOf (w_nextCount st2) A) as Hcount.
  { unfold st2, level. apply (visits_count_two U _ _ A _ qB qC jB jC); try done.
    - apply Hqc1.
    - congruence.
    - simpl. rewrite Hv1, HtB. set_solver.
    - simpl. rewrite Hv1, HtC. set_solver.
    - by rewrite HtB.
    - by rewrite HtC. }
  assert (∃ qA, qA ∈ w_next st2 ∧ typ qA = A) as (qA & HqA & HtA).
  { destruct Hqc2 as [_ Hiff].
    assert (A ∈ typ <$> w_next st2) as Hin by (apply Hiff; lia).
    apply list_elem_of_fmap in Hin as (x & Hx & Hin). by exists x. }
  assert (A ∉ w_visited st2) as HA2.
  { unfold st2, level. rewrite visits_visited. simpl. rewrite Hv1.
    intros [E%elem_of_list_to_set|E]%elem_of_union; [done|set_solver]. }
  (* the third level: [A] scanned, its count being two *)
  destruct n as [|m]; simpl in Hwalk.
  { destruct (w_next st2); [by apply elem_of_nil in HqA|done]. }
  destruct (w_next st2) as [|x2 next2] eqn:En2; [by apply elem_of_nil in HqA|].
  rewrite <- En2 in *. clear x2 next2 En2.
  apply walk_prefix in Hwalk.
  pose proof (foundFields_found U t work Hw) as Hfound. rewrite Forall_forall in Hfound.
  destruct (Hfound e Hework) as [q1 i sf Hqueued1 Hsf Hc Hr].
  assert (q1 = q) as ->.
  { apply (owns_unique U t q1 q (leafEntry U q1 i sf)); [done|done| |done]. by exists i. }
  assert (twice (leafEntry U qA i sf) work) as Htw.
  { eapply twice_prefix; [|exact Hwalk]. unfold level.
    apply visits_records_twice; try done.
    - apply Hqc2.
    - simpl. by rewrite HtA.
    - rewrite HtA. lia.
    - by rewrite HtA, <- Htq. }
  assert (q = qA) as ->.
  { apply (Honce (leafEntry U q i sf) (leafEntry U qA i sf)); try done.
    - by apply twice_elem.
    - rewrite Forall_forall in Hq2. by apply Hq2.
    - by exists i.
    - congruence. }
  by apply (twice_dropped U t work out (leafEntry U qA i sf)).
Qed.

Lemma diamond_fields_dropped_witness :
  ¬ declaredBy Diamond.diamondU 4 1 (mkField "Root" "N" "N" false [2] 0).
Proof.
  apply (diamond_fields_dropped Diamond.diamondU 4
           [mkField "Root" "N" "N" false [2] 0] 0 1 0 0 2 3 1).
  - reflexivity.
  - exists (mkSF "B" "" "" true 2). by repeat split.
  - exists (mkSF "C" "" "" true 3). by repeat split.
  - discriminate.
  - discriminate.
  - discriminate.
  - exists (mkSF "A" "" "" true 1). by repeat split.
  - exists (mkSF "A" "" "" true 1). by repeat split.
  - discriminate.
  - intros [|[|[|i]]] (sf & Hsf & _ & _ & _ & Hf & _); simpl in Hsf; try done;
      injection Hsf as <-; discriminate Hf.
  - apply list_elem_of_here.
Defined.

(** [Root{B; C; N int}] with [B{A}], [C{A}] and [A{X int `sql:"x"`}]: the
    tagged [X] is found twice and dropped. *)
Example diamond_resolution :
  foundFields Diamond.diamondU 4
    = Ret [mkField "Root" "N" "N" false [2] 0;
           mkField "A" "x" "X" true [0; 0; 0] 0;
           mkField "A" "x" "X" true [0; 0; 0] 0]
  ∧ typeFields Diamond.diamondU 4 = Ret [mkField "Root" "N" "N" false [2] 0].
Proof. split; reflexivity. Qed.
